(** * dispatch.plugins.dispatch_google.drive.drive

    A shallow embedding of the Google Drive adapter of Dispatch
    ([src/dispatch/plugins/dispatch_google/drive/drive.py]) and the
    properties of its call executor ([make_call]), its pagination wrapper
    ([paginated]) and the operations built on them.

    The remote service is an interface ([Environment]): every function is a
    computation over an abstract [World] that answers requests.  A
    computation returns the events it produced (remote calls with their
    outcome, sleeps), the world it left and either a value or the exception
    it raised.  Unbounded Python loops ([while True], a retry without stop
    condition) run on fuel; [None] means the fuel ran out. *)

From stdpp Require Import gmap strings list fin_maps.
From Stdlib Require Import ZArith Lia.

#[local] Open Scope Z_scope.
#[local] Set Warnings "-register-all".

(** ** Python values *)

(** The JSON-like values the adapter passes through: request parameters,
    response bodies and their fields. *)
Inductive Value : Type :=
| VNone
| VBool (b : bool)
| VInt (z : Z)
| VStr (s : string)
| VList (l : list Value)
| VTuple (l : list Value)
| VDict (d : gmap string Value).

(** One piece of a formatted message (an f-string): literal text or an
    interpolated value. *)
Inductive Fragment : Type :=
| Lit (s : string)
| Fmt (v : Value).

(** The exceptions the module meets.  [HttpError status content] is an
    instance raised by the client library ([e.resp.status], [e.content]).
    [HttpErrorClass] is what the statement [raise HttpError] raises: the
    class itself, instantiated by the interpreter with no argument, so it
    carries no response and no body (the client library's constructor
    requires both; the interpreter then reports a [TypeError], which no
    [except HttpError] clause catches either). *)
Inductive Exn : Type :=
| HttpError (status : Z) (content : string)
| HttpErrorClass
| TryAgain
| RetryError (last_attempt : Exn)
| Exception (message : list Fragment)
| TypeError
| KeyError (key : string)
| AttributeError
| ValueError
| UnboundLocalError
| OtherError (name : string).

Inductive Res (A : Type) : Type :=
| Ret (a : A)
| Raise (e : Exn).
Arguments Ret {A} a.
Arguments Raise {A} e.

(** Truth value of a Python object ([if x], [not x], [while not x]). *)
Definition truthy (v : Value) : bool :=
  match v with
  | VNone => false
  | VBool b => b
  | VInt z => negb (z =? 0)
  | VStr s => negb (String.eqb s "")
  | VList l | VTuple l => match l with [] => false | _ => true end
  | VDict d => negb (bool_decide (d = ∅))
  end.

(** [v == s] for a string [s]. *)
Definition eq_str (v : Value) (s : string) : bool :=
  match v with
  | VStr s' => String.eqb s' s
  | _ => false
  end.

(** [v[key]]: a dict is looked up ([KeyError] when absent), anything else
    cannot be indexed by a string. *)
Definition getitem (v : Value) (key : string) : Res Value :=
  match v with
  | VDict d => match d !! key with Some x => Ret x | None => Raise (KeyError key) end
  | _ => Raise TypeError
  end.

(** [key in d]. *)
Definition has_key (d : gmap string Value) (key : string) : bool :=
  match d !! key with Some _ => true | None => false end.

(** [v.get(key)]: only dicts have the method. *)
Definition dict_get (v : Value) (key : string) : Res Value :=
  match v with
  | VDict d => Ret (default VNone (d !! key))
  | _ => Raise AttributeError
  end.

Fixpoint chars (s : string) : list Value :=
  match s with
  | EmptyString => []
  | String c s' => VStr (String c EmptyString) :: chars s'
  end.

(** The items a [for] loop or [+=] sees.  A dict yields its keys (here in
    key order; Python keeps insertion order). *)
Definition iterate (v : Value) : Res (list Value) :=
  match v with
  | VList l | VTuple l => Ret l
  | VStr s => Ret (chars s)
  | VDict d => Ret (VStr <$> (map_to_list d).*1)
  | _ => Raise TypeError
  end.

(** [sep.join(items)]: every item must be a string. *)
Fixpoint strings_of (l : list Value) : option (list string) :=
  match l with
  | [] => Some []
  | VStr s :: l' => cons s <$> strings_of l'
  | _ => None
  end.

Definition join (sep : string) (v : Value) : Res string :=
  match iterate v with
  | Ret l => match strings_of l with
             | Some ss => Ret (String.concat sep ss)
             | None => Raise TypeError
             end
  | Raise e => Raise e
  end.

(** [s.split(",")]. *)
Fixpoint split_comma_aux (s : string) (cur : string) : list string :=
  match s with
  | EmptyString => [cur]
  | String c s' =>
      if String.eqb (String c EmptyString) "," then cur :: split_comma_aux s' ""
      else split_comma_aux s' (cur +:+ String c EmptyString)
  end.

Definition split_comma (s : string) : list string := split_comma_aux s "".

(** ** Enumerations *)



Inductive Roles : Type :=
  owner | organizer | file_organizer | writer | commenter | reader.

Definition Roles_value (r : Roles) : string :=
  match r with
  | owner => "owner"
  | organizer => "organizer"
  | file_organizer => "fileOrganizer"
  | writer => "writer"
  | commenter => "commenter"
  | reader => "reader"
  end.

(** ** Requests, events and the environment *)

(** The collections of the client handle: [client.files()],
    [client.drives()], ... *)
Inductive Resource : Type := files | drives | teamdrives | permissions | comments.

(** A call on a collection, [getattr(resource, method)] applied to the
    keyword arguments [kwargs]. *)
Record Request : Type := mkRequest {
  resource : Resource;
  method : string;
  kwargs : gmap string Value
}.

(** [client.files().create(media_body=MediaFileUpload(path, mimetype=mimetype,
    resumable=True), body={"name": name})]: a resumable upload session. *)
Record UploadRequest : Type := mkUpload {
  upload_path : Value;
  upload_mimetype : Value;
  upload_name : Value
}.

Inductive Event : Type :=
| ECall (req : Request) (res : Res Value)
| EChunk (req : UploadRequest) (res : Res Value)
| ESleep (d : Z).

(** What the module takes from outside: the remote service behind the client
    handle, and the library and configuration values whose code is not part
    of this file. *)
Class Environment (World : Type) : Type := {
  (** [request.execute()]: the parsed response, or the exception raised. *)
  execute : Request -> World -> Res Value * World;
  (** [request.next_chunk()] of an upload session: a [(status, response)]
      tuple, or the exception raised. *)
  next_chunk : UploadRequest -> World -> Res Value * World;
  (** [MediaFileUpload(path, mimetype=mimetype, resumable=True)]: the
      constructor opens the file at [path]; the exception it raises when
      the file cannot be opened (an [OSError]). *)
  media_file_upload : Value -> Value -> World -> Res unit * World;
  (** [client.files().create(media_body=media, body={"name": name})]: builds
      the request of the resumable session and sends nothing; the exception
      raised when the client library refuses the media (its size or its
      type). *)
  create_upload : UploadRequest -> World -> Res unit * World;
  (** [str(uuid.uuid4())]. *)
  uuid4 : World -> string * World;
  (** [json.loads(content.decode())]; [None] when the body does not decode
      (a [UnicodeDecodeError] or a [JSONDecodeError], both [ValueError]s). *)
  json_loads : string -> option Value;
  (** [int(s)] for a string [s]; [None] is a [ValueError]. *)
  int_of_str : string -> option Z;
  (** tenacity's exponent for an attempt number ([exp_base ** n], with [n]
      the attempt number or one less depending on the release). *)
  backoff_exp : nat -> Z;
  (** [dispatch.plugins.dispatch_google.config.GOOGLE_DOMAIN]. *)
  GOOGLE_DOMAIN : string
}.

(** ** Computations *)

Section Monad.

Context {World : Type}.

(** Fuel, then the world; [None] when a loop ran out of fuel. *)
Definition M (A : Type) : Type :=
  nat -> World -> option (list Event * World * Res A).

Definition ret {A} (a : A) : M A := fun _ w => Some ([], w, Ret a).

Definition raise {A} (e : Exn) : M A := fun _ w => Some ([], w, Raise e).

(** A pure step that may raise. *)
Definition lift {A} (r : Res A) : M A := fun _ w => Some ([], w, r).

Definition diverge {A} : M A := fun _ _ => None.

Definition bind {A B} (m : M A) (f : A -> M B) : M B :=
  fun fuel w =>
    match m fuel w with
    | None => None
    | Some (t1, w1, Raise e) => Some (t1, w1, Raise e)
    | Some (t1, w1, Ret a) =>
        match f a fuel w1 with
        | None => None
        | Some (t2, w2, r) => Some (t1 ++ t2, w2, r)
        end
    end.

(** [try: m], handing the outcome to the [except] clauses. *)
Definition attempt {A} (m : M A) : M (Res A) :=
  fun fuel w =>
    match m fuel w with
    | None => None
    | Some (t, w1, r) => Some (t, w1, Ret r)
    end.

(** An unbounded loop: its iteration count is bounded by the fuel. *)
Definition with_fuel {A} (loop : nat -> M A) : M A :=
  fun fuel w => loop fuel fuel w.

End Monad.

Arguments M : clear implicits.

Notation "x <- m ;; k" := (bind m (fun x => k))
  (at level 100, m at next level, right associativity).
Notation "m ;;; k" := (bind m (fun _ => k))
  (at level 100, right associativity).

(** [for x in l: body x]. *)
Fixpoint for_each {World} (l : list Value) (body : Value -> M World unit)
  : M World unit :=
  match l with
  | [] => ret tt
  | x :: l' => body x ;;; for_each l' body
  end.

(** [status in codes]. *)
Definition status_in (status : Z) (codes : list Z) : bool :=
  existsb (Z.eqb status) codes.
Arguments status_in : simpl never.

Definition is_TryAgain (e : Exn) : bool :=
  match e with TryAgain => true | _ => false end.

(** ** tenacity *)

(** Modelled from the spec: the [retry] decorator and its strategies belong
    to tenacity, a library outside the repository.  The spec describes them
    as retrying on the designated condition with exponential backoff between
    the given bounds, for up to the given number of attempts, the exhausted
    retry reaching the caller as a failure; the arguments of each decorator
    are those of the source.

    A [Retrying] controller: when to stop, which exceptions to retry on, how
    long to sleep before the next attempt (both as functions of the number of
    the attempt that just failed, starting at 1). *)
Record Retrying : Type := mkRetrying {
  stop : nat -> bool;
  retry_on : Exn -> bool;
  wait : nat -> Z
}.

(** Modelled from the spec: [stop_after_attempt(n)] stops once [n] attempts
    were made. *)
Definition stop_after_attempt (max_attempt_number : nat) : nat -> bool :=
  fun attempt_number => (max_attempt_number <=? attempt_number)%nat.

Arguments stop_after_attempt : simpl never.

(** Modelled from the spec: no [stop] argument, no attempt ceiling. *)
Definition stop_never : nat -> bool := fun _ => false.

(** [retry_if_exception_type(TryAgain)] and the default
    [retry_if_exception_type()], which retries on every exception. *)
Definition retry_if_TryAgain : Exn -> bool := is_TryAgain.
Definition retry_if_exception : Exn -> bool := fun _ => true.

(** Modelled from the spec: no [wait] argument, no delay. *)
Definition wait_none : nat -> Z := fun _ => 0.

Section Drive.

Context {World : Type} `{Env : Environment World}.

(** *** Effects *)

(** [getattr(client, func)] applied to [kwargs], then [.execute()]. *)
Definition call (req : Request) : M World Value :=
  fun _ w => let '(r, w') := execute req w in Some ([ECall req r], w', r).

(** [request.next_chunk()]. *)
Definition send_chunk (req : UploadRequest) : M World Value :=
  fun _ w => let '(r, w') := next_chunk req w in Some ([EChunk req r], w', r).

(** [MediaFileUpload(path, mimetype=mimetype, resumable=True)]: local, no
    request to the service. *)
Definition open_media (path mimetype : Value) : M World unit :=
  fun _ w =>
    let '(r, w') := media_file_upload path mimetype w in Some ([], w', r).

(** [client.files().create(media_body=media, body={"name": name})]: local
    as well. *)
Definition build_upload (req : UploadRequest) : M World unit :=
  fun _ w => let '(r, w') := create_upload req w in Some ([], w', r).

(** [time.sleep(d)]. *)
Definition sleep (d : Z) : M World unit :=
  fun _ w => Some ([ESleep d], w, Ret tt).

Definition new_uuid : M World string :=
  fun _ w => let '(s, w') := uuid4 w in Some ([], w', Ret s).

(** *** The retry decorator *)

(** Modelled from the spec: [wait_exponential(multiplier, min, max)] is the
    exponential of the attempt number times [multiplier], kept between [min]
    and [max]. *)
Definition wait_exponential (multiplier min max : Z) : nat -> Z :=
  fun attempt_number =>
    Z.max (Z.max 0 min) (Z.min (multiplier * backoff_exp attempt_number) max).

(** Modelled from the spec: the controller's loop.  An attempt that returns
    ends it.  An attempt that raises [TryAgain], or an exception the policy
    retries on, is followed by the stop check: stop raises [RetryError],
    otherwise the controller sleeps and attempts again.  Any other exception
    is raised as it is. *)
Fixpoint retry_loop {A} (p : Retrying) (fn : M World A)
    (attempt_number : nat) (n : nat) : M World A :=
  match n with
  | O => diverge
  | S n' =>
      r <- attempt fn ;;
      match r with
      | Ret a => ret a
      | Raise e =>
          if is_TryAgain e || retry_on p e then
            if stop p attempt_number then raise (RetryError e)
            else
              sleep (wait p attempt_number) ;;;
              retry_loop p fn (S attempt_number) n'
          else raise e
      end
  end.

Definition retry {A} (p : Retrying) (fn : M World A) : M World A :=
  with_fuel (retry_loop p fn 1).

(** *** paginated *)

(** [int(v)]. *)
Definition py_int (v : Value) : Res Z :=
  match v with
  | VInt z => Ret z
  | VBool b => Ret (if b then 1 else 0)
  | VStr s => match int_of_str s with Some z => Ret z | None => Raise ValueError end
  | _ => Raise TypeError
  end.

(** "auto add next page token for pagination": the [fields] mask, when
    given, gets [nextPageToken] appended unless it lists it. *)
Definition add_next_page_token (kw : gmap string Value)
  : Res (gmap string Value) :=
  match kw !! "fields" with
  | Some v =>
      if truthy v then
        match v with
        | VStr s =>
            let fields := split_comma s in
            let fields :=
              if existsb (String.eqb "nextPageToken") fields then fields
              else fields ++ ["nextPageToken"] in
            Ret (<["fields" := VStr (String.concat "," fields)]> kw)
        | _ => Raise AttributeError
        end
      else Ret kw
  | None => Ret kw
  end.

Fixpoint paginated_loop (data_key : string)
    (func : gmap string Value -> M World Value) (limit : Z)
    (kw : gmap string Value) (results : list Value) (n : nat)
  : M World (list Value) :=
  match n with
  | O => diverge
  | S n' =>
      kw <- lift (add_next_page_token kw) ;;
      response <- func kw ;;
      page <- lift (dict_get response data_key) ;;
      items <- lift (iterate page) ;;
      let results := results ++ items in
      next_token <- lift (dict_get response "nextPageToken") ;;
      if negb (truthy next_token) then ret results
      else
        let kw := <["pageToken" := next_token]> kw in
        if Z.of_nat (length results) >? limit then ret results
        else paginated_loop data_key func limit kw results n'
  end.

(** The decorated function.  [func] is the wrapped function applied to its
    positional arguments; [kw] are the keyword arguments of the call. *)
Definition paginated (data_key : string)
    (func : gmap string Value -> M World Value) (kw : gmap string Value)
  : M World (list Value) :=
  limit <- lift (py_int (default (VInt 250) (kw !! "limit"))) ;;
  let kw := delete "limit" kw in
  with_fuel (paginated_loop data_key func limit kw []).

(** *** make_call *)

Definition make_call_body (client : Resource) (func : string)
    (propagate_errors : bool) (kw : gmap string Value) : M World Value :=
  r <- attempt (call (mkRequest client func kw)) ;;
  match r with
  | Ret v => ret v
  | Raise (HttpError status content) =>
      if status_in status [300; 429; 500; 502; 503; 504] then raise TryAgain
      else if propagate_errors then raise HttpErrorClass
      else
        errors <- lift (match json_loads content with
                        | Some errors => Ret errors
                        | None => Raise ValueError
                        end) ;;
        raise (Exception [Lit "Request failed. Errors: "; Fmt errors])
  | Raise e => raise e
  end.

Definition make_call (client : Resource) (func : string)
    (propagate_errors : bool) (kw : gmap string Value) : M World Value :=
  retry
    {| stop := stop_after_attempt 5;
       retry_on := retry_if_TryAgain;
       wait := wait_exponential 1 2 5 |}
    (make_call_body client func propagate_errors kw).

(** A call [make_call(client, func, k1=v1, ...)] that also unpacks a dict
    [extra] of keywords: a keyword of [extra] that repeats a named one (or
    [client], [func]) is a [TypeError]; [propagate_errors], when among
    [extra], binds the parameter. *)
Definition make_call_with (client : Resource) (func : string)
    (named extra : gmap string Value) : M World Value :=
  if existsb (has_key extra) (["client"; "func"] ++ (map_to_list named).*1) then
    raise TypeError
  else
    make_call client func
      (truthy (default (VBool false) (extra !! "propagate_errors")))
      (named ∪ delete "propagate_errors" extra).

(** *** Uploads *)

Definition upload_chunk_body (request : UploadRequest) : M World Value :=
  r <- attempt (send_chunk request) ;;
  match r with
  | Ret v => ret v
  | Raise (HttpError status content) =>
      if status_in status [500; 502; 503; 504] then
        raise (HttpError status content)
      else ret VNone
  | Raise e => raise e
  end.

Definition upload_chunk (request : UploadRequest) : M World Value :=
  retry
    {| stop := stop_never;
       retry_on := retry_if_exception;
       wait := wait_exponential 1 0 10 |}
    (upload_chunk_body request).

(** [_, response = v]. *)
Definition unpack_pair (v : Value) : Res (Value * Value) :=
  match iterate v with
  | Ret [a; b] => Ret (a, b)
  | Ret _ => Raise ValueError
  | Raise e => Raise e
  end.

Fixpoint upload_loop (request : UploadRequest) (n : nat) : M World Value :=
  match n with
  | O => diverge
  | S n' =>
      v <- upload_chunk request ;;
      p <- lift (unpack_pair v) ;;
      let response := snd p in
      if negb (truthy response) then upload_loop request n'
      else ret response
  end.

Definition upload_file (path name mimetype : Value) : M World Value :=
  open_media path mimetype ;;;
  r <- attempt (build_upload (mkUpload path mimetype name) ;;;
                with_fuel (upload_loop (mkUpload path mimetype name))) ;;
  match r with
  | Ret response => ret response
  | Raise (HttpError status _) =>
      if status_in status [404] then raise TryAgain
      else
        raise (Exception [Lit "Failed to upload file. Name: "; Fmt name;
                          Lit " Path: "; Fmt path;
                          Lit " MIMEType: "; Fmt mimetype])
  | Raise e => raise e
  end.

(** *** Files, permissions and drives *)

Definition get_file (file_id : Value) : M World Value :=
  make_call files "get" false
    {[ "fileId" := file_id;
       "supportsTeamDrives" := VBool true;
       "fields" := VStr "id, name, parents, webViewLink" ]}.


Definition add_permission (email team_drive_or_file_id role user_type : Value)
  : M World Value :=
  let permission :=
    VDict {[ "type" := user_type; "role" := role; "emailAddress" := email ]} in
  make_call permissions "create" false
    {[ "fileId" := team_drive_or_file_id;
       "body" := permission;
       "sendNotificationEmail" := VBool false;
       "fields" := VStr "id";
       "supportsTeamDrives" := VBool true ]}.

(** Reading a local variable that an earlier branch may have left unbound. *)
Definition read_local {A} (x : option A) : M World A :=
  match x with
  | Some v => ret v
  | None => raise UnboundLocalError
  end.

(** The body of [create_team_drive], one attempt of its retry. *)
Definition create_team_drive_body (name : Value) (members : list Value)
    (role : Roles) : M World Value :=
  request_id <- new_uuid ;;
  let meta := VDict {[ "name" := name ]} in
  r <- attempt (make_call drives "create" false
                  {[ "body" := meta; "requestId" := VStr request_id ]}) ;;
  drive_data <-
    match r with
    | Ret v => ret (Some v)
    | Raise (HttpError status _) =>
        if status_in status [409] then raise TryAgain else ret None
    | Raise e => raise e
    end ;;
  for_each members (fun member =>
    d <- read_local drive_data ;;
    id <- lift (getitem d "id") ;;
    add_permission member id (VStr (Roles_value role)) (VStr "user") ;;;
    ret tt) ;;;
  read_local drive_data.

Definition create_team_drive (name : Value) (members : list Value)
    (role : Roles) : M World Value :=
  retry
    {| stop := stop_after_attempt 5;
       retry_on := retry_if_TryAgain;
       wait := wait_none |}
    (create_team_drive_body name members role).

Definition create_file (parent_id name file_type : Value) : M World Value :=
  mimetype <-
    (if eq_str file_type "folder" then ret (VStr "application/vnd.google-apps.folder")
     else raise UnboundLocalError) ;;
  let file_metadata :=
    VDict {[ "name" := name; "mimeType" := mimetype;
             "parents" := VList [parent_id] ]} in
  make_call files "create" false
    {[ "body" := file_metadata;
       "supportsTeamDrives" := VBool true;
       "fields" := VStr "id, name, parents, webViewLink" ]}.

(** The function [list_files] decorates: one page.  [team_drive_id] and [q]
    are its named parameters, [kw] the remaining keywords. *)
Definition list_files_page (team_drive_id q : Value) (kw : gmap string Value)
  : M World Value :=
  make_call_with files "list"
    {[ "corpora" := VStr "drive";
       "driveId" := team_drive_id;
       "supportsAllDrives" := VBool true;
       "includeItemsFromAllDrives" := VBool true;
       "q" := q ]}
    kw.

Definition list_files (team_drive_id q : Value) (kw : gmap string Value)
  : M World (list Value) :=
  paginated "files" (list_files_page team_drive_id q) kw.

Definition list_team_drives (kw : gmap string Value) : M World (list Value) :=
  paginated "teamDrives" (make_call_with teamdrives "list" ∅) kw.

Definition list_comments (file_id : Value) (kw : gmap string Value)
  : M World (list Value) :=
  paginated "comments"
    (make_call_with comments "list" {[ "fileId" := file_id; "fields" := VStr "*" ]})
    kw.

Definition copy_file (team_drive_id file_id new_file_name : Value) : M World Value :=
  make_call files "copy" false
    {[ "body" := VDict {[ "name" := new_file_name; "teamDriveId" := team_drive_id ]};
       "fileId" := file_id;
       "fields" := VStr "id, name, parents, webViewLink";
       "supportsTeamDrives" := VBool true ]}.

Definition delete_file (team_drive_id file_id : Value) : M World Value :=
  make_call files "delete" false
    {[ "fileId" := file_id; "supportsTeamDrives" := VBool true ]}.

(** The body of the loop of [delete_team_drive], for the file [f]. *)
Definition delete_listed (team_drive_id f : Value) : M World unit :=
  id <- lift (getitem f "id") ;;
  delete_file team_drive_id id ;;;
  ret tt.

Definition delete_team_drive (team_drive_id : Value) (empty : bool) : M World Value :=
  (if empty then
     found <- list_files team_drive_id VNone ∅ ;;
     sleep 5 ;;;
     for_each found (delete_listed team_drive_id)
   else ret tt) ;;;
  make_call teamdrives "delete" false {[ "teamDriveId" := team_drive_id ]}.

Definition move_file (team_drive_id file_id : Value) : M World Value :=
  f <- make_call files "get" false
         {[ "fileId" := file_id;
            "fields" := VStr "parents";
            "supportsTeamDrives" := VBool true ]} ;;
  parents <- lift (dict_get f "parents") ;;
  previous_parents <- lift (join "," parents) ;;
  make_call files "update" false
    {[ "fileId" := file_id;
       "addParents" := team_drive_id;
       "removeParents" := VStr previous_parents;
       "supportsTeamDrives" := VBool true;
       "fields" := VStr "id, name, parents, webViewLink" ]}.



(** The body of the loop of [remove_permission], for the entry [p]. *)
Definition remove_if_address (email : string) (team_drive_id p : Value)
  : M World unit :=
  address <- lift (getitem p "emailAddress") ;;
  if eq_str address email then
    id <- lift (getitem p "id") ;;
    make_call permissions "delete" false
      {[ "fileId" := team_drive_id;
         "permissionId" := id;
         "supportsTeamDrives" := VBool true ]} ;;;
    ret tt
  else ret tt.

Definition remove_permission (email : string) (team_drive_id : Value) : M World Value :=
  listed <- make_call permissions "list" false
              {[ "fileId" := team_drive_id;
                 "supportsTeamDrives" := VBool true;
                 "fields" := VStr "permissions(id, emailAddress)" ]} ;;
  entries <- lift (getitem listed "permissions") ;;
  entries <- lift (iterate entries) ;;
  for_each entries (remove_if_address email team_drive_id) ;;;
  ret VNone.

Definition list_permissions (kw : gmap string Value) : M World Value :=
  make_call_with files "list" ∅ kw.

End Drive.

(** ** Reading a trace *)

(** The requests sent to the service, in order. *)
Definition calls (t : list Event) : list Request :=
  omap (fun ev => match ev with ECall req _ => Some req | _ => None end) t.

(** The requests the service answered (no exception), in order. *)
Definition answered (t : list Event) : list Request :=
  omap (fun ev => match ev with ECall req (Ret _) => Some req | _ => None end) t.

(** The same with the responses. *)
Definition answers (t : list Event) : list (Request * Value) :=
  omap (fun ev => match ev with ECall req (Ret v) => Some (req, v) | _ => None end) t.

(** The delays slept, in order. *)
Definition sleeps (t : list Event) : list Z :=
  omap (fun ev => match ev with ESleep d => Some d | _ => None end) t.

(** A trace without responses: what was sent and how long was slept. *)
Definition skeleton (t : list Event) : list (Request + Z) :=
  omap (fun ev =>
          match ev with
          | ECall req _ => Some (inl req)
          | ESleep d => Some (inr d)
          | EChunk _ _ => None
          end) t.

(** The service answers the next [n] sends of [req] with a transient
    status. *)
Fixpoint always_transient `{Environment World} (req : Request) (n : nat)
    (w : World) : Prop :=
  match n with
  | O => True
  | S n' =>
      match execute req w with
      | (Raise (HttpError status _), w') =>
          status_in status [300; 429; 500; 502; 503; 504] = true
          /\ always_transient req n' w'
      | _ => False
      end
  end.

(** Every request of the trace is [req]. *)
Definition sends_only (req : Request) (t : list Event) : Prop :=
  Forall (fun r => r = req) (calls t).

(** The failure [make_call] raises for a response body [content] when the
    caller did not ask for the raw error. *)
Definition request_failed `{Environment World} (content : string) : Exn :=
  match json_loads content with
  | Some errors => Exception [Lit "Request failed. Errors: "; Fmt errors]
  | None => ValueError
  end.

(** ** Pages *)

(** The items of a page: [response.get(data_key)], iterated. *)
Definition page_items (data_key : string) (response : Value) : Res (list Value) :=
  match dict_get response data_key with
  | Ret page => iterate page
  | Raise e => Raise e
  end.

(** Whether a page carries a continuation token: [nextPageToken] is there
    and is not empty. *)
Definition has_next (response : Value) : bool :=
  match dict_get response "nextPageToken" with
  | Ret token => truthy token
  | Raise _ => false
  end.

(** The successive pages a listing function serves, asked first with the
    keywords [kw] in the world [w]: every page after the first is asked for
    with the [nextPageToken] of the page before as [pageToken] (and, each
    time, with [nextPageToken] in the fields mask when there is one).  [t]
    are the events of these calls and [w'] the world they leave. *)
Inductive serves `{Environment World} (func : gmap string Value -> M World Value)
    (fuel : nat)
  : gmap string Value -> World -> list Value -> list Event -> World -> Prop :=
| serves_one kw kw' w t w' response :
    add_next_page_token kw = Ret kw' ->
    func kw' fuel w = Some (t, w', Ret response) ->
    serves func fuel kw w [response] t w'
| serves_next kw kw' w t w1 response token pages t' w' :
    add_next_page_token kw = Ret kw' ->
    func kw' fuel w = Some (t, w1, Ret response) ->
    dict_get response "nextPageToken" = Ret token ->
    serves func fuel (<["pageToken" := token]> kw') w1 pages t' w' ->
    serves func fuel kw w (response :: pages) (t ++ t') w'.

(** ** The requests of the operations *)

(** [move_file] reads the parents of the file, then updates them. *)
Definition read_parents_request (file_id : Value) : Request :=
  mkRequest files "get"
    {[ "fileId" := file_id;
       "fields" := VStr "parents";
       "supportsTeamDrives" := VBool true ]}.

Definition update_parents_request (team_drive_id file_id : Value)
    (previous_parents : string) : Request :=
  mkRequest files "update"
    {[ "fileId" := file_id;
       "addParents" := team_drive_id;
       "removeParents" := VStr previous_parents;
       "supportsTeamDrives" := VBool true;
       "fields" := VStr "id, name, parents, webViewLink" ]}.

(** What [move_file] computes from the response [f] of the read. *)
Definition previous_parents_of (f : Value) : Res string :=
  match dict_get f "parents" with
  | Ret parents => join "," parents
  | Raise e => Raise e
  end.

Definition delete_file_request (file_id : Value) : Request :=
  mkRequest files "delete"
    {[ "fileId" := file_id; "supportsTeamDrives" := VBool true ]}.

(** [remove_permission] lists the permissions, then deletes by id. *)
Definition list_permissions_request (team_drive_id : Value) : Request :=
  mkRequest permissions "list"
    {[ "fileId" := team_drive_id;
       "supportsTeamDrives" := VBool true;
       "fields" := VStr "permissions(id, emailAddress)" ]}.

Definition delete_permission_request (team_drive_id id : Value) : Request :=
  mkRequest permissions "delete"
    {[ "fileId" := team_drive_id;
       "permissionId" := id;
       "supportsTeamDrives" := VBool true ]}.

(** The entries of a listing of permissions. *)
Definition permission_entries (listed : Value) : Res (list Value) :=
  match getitem listed "permissions" with
  | Ret ps => iterate ps
  | Raise e => Raise e
  end.

(** Whether a permission entry carries the address [email]; [None] when it
    carries no address at all. *)
Definition has_address (email : string) (p : Value) : option bool :=
  match getitem p "emailAddress" with
  | Ret address => Some (eq_str address email)
  | Raise _ => None
  end.

(** ** The steps of archiving a drive *)

(** [archive_team_drive] creates the destination folder ... *)
Definition create_folder_request (parent_id name : Value) : Request :=
  mkRequest files "create"
    {[ "body" := VDict {[ "name" := name;
                          "mimeType" := VStr "application/vnd.google-apps.folder";
                          "parents" := VList [parent_id] ]};
       "supportsTeamDrives" := VBool true;
       "fields" := VStr "id, name, parents, webViewLink" ]}.



(** ... and in the end deletes the source drive. *)
Definition delete_drive_request (team_drive_id : Value) : Request :=
  mkRequest teamdrives "delete" {[ "teamDriveId" := team_drive_id ]}.

(** What a request does, by collection and method, with the parameters that
    name its target. *)
Inductive Step : Type :=
| CreateFile
| ListFiles
| Grant (file_id : Value)
| ReadFile (file_id : Value)
| Move (file_id folder_id : Value)
| DeleteFile (file_id : Value)
| DeleteDrive (team_drive_id : Value)
| OtherStep.

Definition step_of (req : Request) : Step :=
  let arg key := default VNone (kwargs req !! key) in
  match resource req with
  | files =>
      if String.eqb (method req) "create" then CreateFile
      else if String.eqb (method req) "list" then ListFiles
      else if String.eqb (method req) "get" then ReadFile (arg "fileId")
      else if String.eqb (method req) "update" then
        Move (arg "fileId") (arg "addParents")
      else if String.eqb (method req) "delete" then DeleteFile (arg "fileId")
      else OtherStep
  | permissions =>
      if String.eqb (method req) "create" then Grant (arg "fileId")
      else OtherStep
  | teamdrives =>
      if String.eqb (method req) "delete" then DeleteDrive (arg "teamDriveId")
      else OtherStep
  | _ => OtherStep
  end.

(** The steps the service was asked for, and those it carried out. *)
Definition attempted (t : list Event) : list Step := step_of <$> calls t.
Definition steps (t : list Event) : list Step := step_of <$> answered t.





(** ** A scripted service *)

(** The world is the list of answers still to give, one per request or
    chunk, whatever it asks; local files open and the client library
    takes them. *)
Definition next_answer (w : list (Res Value)) : Res Value * list (Res Value) :=
  match w with
  | [] => (Raise (OtherError "no answer left"), [])
  | r :: w' => (r, w')
  end.

#[global] Instance scripted : Environment (list (Res Value)) := {|
  execute _ := next_answer;
  next_chunk _ := next_answer;
  media_file_upload _ _ w := (Ret tt, w);
  create_upload _ w := (Ret tt, w);
  uuid4 w := ("c1f0e3a2-5b7d-4c1e-9a54-0d2f6b8e7a11", w);
  json_loads s := Some (VStr s);
  int_of_str _ := None;
  backoff_exp n := 2 ^ Z.of_nat n;
  GOOGLE_DOMAIN := "example.com"
|}.

(** A failure response with the given status. *)
Definition failure (status : Z) : Res Value :=
  Raise (HttpError status "{}").

(** ** Further readings of the code *)

(** The service answers the next [k] sends of [req] with a transient status
    and the one after them with [v], leaving the world [w']. *)
Fixpoint answers_after `{Environment World} (req : Request) (k : nat)
    (w : World) (v : Value) (w' : World) : Prop :=
  match k with
  | O => execute req w = (Ret v, w')
  | S k' =>
      match execute req w with
      | (Raise (HttpError status _), w1) =>
          status_in status [300; 429; 500; 502; 503; 504] = true
          /\ answers_after req k' w1 v w'
      | _ => False
      end
  end.


(** The keywords carry a fields mask that lists [nextPageToken]. *)
Definition lists_next_page_token (kw : gmap string Value) : Prop :=
  exists s, kw !! "fields" = Some (VStr s) /\ "nextPageToken" ∈ split_comma s.

(** A service whose listings never end: every request is answered with an
    empty page that carries a continuation token. *)
Definition endless_page : Value :=
  VDict {[ "files" := VList []; "nextPageToken" := VStr "more" ]}.

Definition endless : Environment unit := {|
  execute _ w := (Ret endless_page, w);
  next_chunk _ w := (Ret VNone, w);
  media_file_upload _ _ w := (Ret tt, w);
  create_upload _ w := (Ret tt, w);
  uuid4 w := ("c1f0e3a2-5b7d-4c1e-9a54-0d2f6b8e7a11", w);
  json_loads s := Some (VStr s);
  int_of_str _ := None;
  backoff_exp n := 2 ^ Z.of_nat n;
  GOOGLE_DOMAIN := "example.com"
|}.

(** ** More requests of the operations *)

(** [create_team_drive] creates the drive under a fresh request id ... *)
Definition create_drive_request (name : Value) (request_id : string) : Request :=
  mkRequest drives "create"
    {[ "body" := VDict {[ "name" := name ]}; "requestId" := VStr request_id ]}.



(** What [upload_file] raises for an exception [e] caught in its [try]:
    the clauses of its handler. *)
Definition upload_handler (path name mimetype : Value) (e : Exn) : Exn :=
  match e with
  | HttpError status _ =>
      if status_in status [404] then TryAgain
      else Exception [Lit "Failed to upload file. Name: "; Fmt name;
                      Lit " Path: "; Fmt path;
                      Lit " MIMEType: "; Fmt mimetype]
  | _ => e
  end.

(** ** Reading the chunks of a trace *)

(** The chunks sent, with their outcome, in order. *)
Definition chunks (t : list Event) : list (UploadRequest * Res Value) :=
  omap (fun ev => match ev with EChunk req r => Some (req, r) | _ => None end) t.

(** The outcomes of a chunk that make [upload_chunk] send it again: the
    statuses 500, 502, 503, 504 and every exception that is not an
    [HttpError]. *)
Definition chunk_retried (r : Res Value) : Prop :=
  match r with
  | Ret _ => False
  | Raise (HttpError status _) => status_in status [500; 502; 503; 504] = true
  | Raise _ => True
  end.

(** What [upload_chunk] returns for the last outcome of a chunk. *)
Definition chunk_result (r : Res Value) : Value :=
  match r with
  | Ret v => v
  | Raise _ => VNone
  end.

(** The service fails the next [k] sends of a chunk with a status among
    500, 502, 503, 504 and answers the one after them with [v]. *)
Fixpoint chunk_after `{Environment World} (req : UploadRequest) (k : nat)
    (w : World) (v : Value) (w' : World) : Prop :=
  match k with
  | O => next_chunk req w = (Ret v, w')
  | S k' =>
      match next_chunk req w with
      | (Raise (HttpError status _), w1) =>
          status_in status [500; 502; 503; 504] = true
          /\ chunk_after req k' w1 v w'
      | _ => False
      end
  end.

(** The service takes [k] chunks, answering each with a progress status
    and no response, and answers the next one with the [response]. *)
Fixpoint upload_progress `{Environment World} (req : UploadRequest) (k : nat)
    (w : World) (response : Value) (w' : World) : Prop :=
  match k with
  | O =>
      exists status,
        next_chunk req w = (Ret (VTuple [status; response]), w')
        /\ truthy response = true
  | S k' =>
      exists status pending w1,
        next_chunk req w = (Ret (VTuple [status; pending]), w1)
        /\ truthy pending = false
        /\ upload_progress req k' w1 response w'
  end.

(** ** Downloads *)

(** What the download functions take from outside: the temporary file, the
    downloader of the client library ([MediaIoBaseDownload]) and the buffer
    it writes to. *)
Class Transfers (World : Type) : Type := {
  (** [tempfile.NamedTemporaryFile()]: the file object, or the exception
      raised. *)
  named_temporary_file : World -> Res Value * World;
  (** [downloader.next_chunk()] for a downloader of the given request: a
      [(status, done)] tuple, or the exception raised. *)
  download_chunk : Request -> World -> Res Value * World;
  (** [fp.getvalue().decode("utf-8")] for the buffer the downloader wrote
      to: the text, or the exception raised (a [UnicodeDecodeError] is a
      [ValueError]). *)
  buffer_text : World -> Res string;
  (** [issubclass(cls, OSError)] for the exception class named, [OSError]
      itself apart: the hierarchy is the interpreter's and the libraries'
      ([ConnectionResetError], [TimeoutError], the socket and SSL errors,
      ...). *)
  oserror_subclass : string -> bool
}.

Definition is_HttpError (e : Exn) : bool :=
  match e with HttpError _ _ => true | _ => false end.

Section Downloads.

Context {World : Type} `{Tr : Transfers World}.

(** [except OSError]: [OSError] and its subclasses; the class of an
    exception is what [OtherError] names, and no exception the module
    raises or names itself is one. *)
Definition is_OSError (e : Exn) : bool :=
  match e with
  | OtherError name => String.eqb name "OSError" || oserror_subclass name
  | _ => false
  end.

Definition new_tempfile : M World Value :=
  fun _ w => let '(r, w') := named_temporary_file w in Some ([], w', r).

(** [downloader.next_chunk()]: the chunk is a request to the service. *)
Definition fetch_chunk (req : Request) : M World Value :=
  fun _ w => let '(r, w') := download_chunk req w in Some ([ECall req r], w', r).

Definition read_buffer : M World string :=
  fun _ w => Some ([], w, buffer_text w).

(** [while not response: _, response = downloader.next_chunk()], entered
    with [response = False]. *)
Fixpoint download_loop (request : Request) (n : nat) : M World unit :=
  match n with
  | O => diverge
  | S n' =>
      v <- fetch_chunk request ;;
      p <- lift (unpack_pair v) ;;
      let response := snd p in
      if negb (truthy response) then download_loop request n'
      else ret tt
  end.

Definition download_file (file_id : Value) : M World Value :=
  let request := mkRequest files "get_media" {[ "fileId" := file_id ]} in
  fp <- new_tempfile ;;
  r <- attempt (with_fuel (download_loop request)) ;;
  match r with
  | Ret _ => ret fp
  | Raise (HttpError _ _) =>
      raise (Exception [Lit "Failed to download file. Id: "; Fmt file_id])
  | Raise e => raise e
  end.

Definition download_google_document (file_id mime_type : Value) : M World Value :=
  let request :=
    mkRequest files "export_media"
      {[ "fileId" := file_id; "mimeType" := mime_type ]} in
  r <- attempt (with_fuel (download_loop request) ;;;
                text <- read_buffer ;;
                ret (VStr text)) ;;
  match r with
  | Ret text => ret text
  | Raise e =>
      if is_HttpError e || is_OSError e then
        raise (Exception [Lit "Failed to export the file. Id: "; Fmt file_id;
                          Lit " MimeType: "; Fmt mime_type])
      else raise e
  end.

End Downloads.

(** The requests of the two downloads. *)
Definition get_media_request (file_id : Value) : Request :=
  mkRequest files "get_media" {[ "fileId" := file_id ]}.

Definition export_media_request (file_id mime_type : Value) : Request :=
  mkRequest files "export_media"
    {[ "fileId" := file_id; "mimeType" := mime_type ]}.

(** The failures the downloads raise in place of the one they caught. *)
Definition download_failed (file_id : Value) : Exn :=
  Exception [Lit "Failed to download file. Id: "; Fmt file_id].

Definition export_failed (file_id mime_type : Value) : Exn :=
  Exception [Lit "Failed to export the file. Id: "; Fmt file_id;
             Lit " MimeType: "; Fmt mime_type].

(** The events of chunks that were answered with the values [vs]. *)
Definition answered_chunks (request : Request) (vs : list Value) : list Event :=
  (fun v => ECall request (Ret v)) <$> vs.

(** The scripted service for downloads: the chunks are the scripted answers,
    the temporary file and the text of the buffer are fixed, and the
    subclasses of [OSError] are the built-in ones. *)
#[global] Instance scripted_transfers : Transfers (list (Res Value)) := {|
  named_temporary_file w := (Ret (VStr "/tmp/tmpq3k1x9"), w);
  download_chunk _ := next_answer;
  buffer_text _ := Ret "exported text";
  oserror_subclass name :=
    existsb (String.eqb name)
      ["BlockingIOError"; "ChildProcessError"; "ConnectionError";
       "BrokenPipeError"; "ConnectionAbortedError"; "ConnectionRefusedError";
       "ConnectionResetError"; "FileExistsError"; "FileNotFoundError";
       "InterruptedError"; "IsADirectoryError"; "NotADirectoryError";
       "PermissionError"; "ProcessLookupError"; "TimeoutError"]
|}.

(** The service serves [k] chunks that leave the download unfinished, then
    the chunk that finishes it. *)
Fixpoint download_progress `{Transfers World} (req : Request) (k : nat)
    (w : World) (w' : World) : Prop :=
  match k with
  | O =>
      exists status done,
        download_chunk req w = (Ret (VTuple [status; done]), w')
        /\ truthy done = true
  | S k' =>
      exists status done w1,
        download_chunk req w = (Ret (VTuple [status; done]), w1)
        /\ truthy done = false
        /\ download_progress req k' w1 w'
  end.
(** ** Running computations *)

Section Runs.

Context {World : Type} `{Env : Environment World}.

Lemma bind_run {A B} (m : M World A) (f : A -> M World B) fuel w t w' r :
  bind m f fuel w = Some (t, w', r) ->
  (exists t1 w1 a t2,
      m fuel w = Some (t1, w1, Ret a)
      /\ f a fuel w1 = Some (t2, w', r) /\ t = t1 ++ t2)
  \/ (exists e, m fuel w = Some (t, w', Raise e) /\ r = Raise e).
Proof.
  unfold bind. intros Hrun.
  destruct (m fuel w) as [[[t1 w1] [a | e]] |]; try discriminate.
  - destruct (f a fuel w1) as [[[t2 w2] r2] |] eqn:Hf; try discriminate.
    injection Hrun as <- <- <-. left. exists t1, w1, a, t2. auto.
  - injection Hrun as <- <- <-. right. exists e. auto.
Qed.

Lemma bind_ret_run {A B} (m : M World A) (f : A -> M World B) fuel w t1 w1 a :
  m fuel w = Some (t1, w1, Ret a) ->
  bind m f fuel w =
    match f a fuel w1 with
    | None => None
    | Some (t2, w2, r) => Some (t1 ++ t2, w2, r)
    end.
Proof. unfold bind. now intros ->. Qed.

Lemma bind_raise_run {A B} (m : M World A) (f : A -> M World B) fuel w t1 w1 e :
  m fuel w = Some (t1, w1, Raise e) ->
  bind m f fuel w = Some (t1, w1, Raise e).
Proof. unfold bind. now intros ->. Qed.

Lemma bind_lift_ret {A B} (a : A) (f : A -> M World B) fuel w :
  bind (lift (Ret a)) f fuel w = f a fuel w.
Proof.
  unfold bind, lift. now destruct (f a fuel w) as [[[t2 w2] r] |].
Qed.

Lemma bind_lift_raise {A B} e (f : A -> M World B) fuel w :
  bind (lift (Raise e)) f fuel w = Some ([], w, Raise e).
Proof. reflexivity. Qed.

Lemma bind_ret {A B} (a : A) (f : A -> M World B) fuel w :
  bind (ret a) f fuel w = f a fuel w.
Proof. apply bind_lift_ret. Qed.

Lemma bind_raise {A B} e (f : A -> M World B) fuel w :
  bind (raise e) f fuel w = Some ([], w, Raise e).
Proof. reflexivity. Qed.

Lemma calls_app t1 t2 : calls (t1 ++ t2) = calls t1 ++ calls t2.
Proof. apply omap_app. Qed.


Lemma answers_app t1 t2 : answers (t1 ++ t2) = answers t1 ++ answers t2.
Proof. apply omap_app. Qed.

Lemma answered_answers t : answered t = (answers t).*1.
Proof.
  induction t as [| ev t IH]; [reflexivity |].
  destruct ev as [req [v | e] | |]; simpl; unfold answered, answers in *;
    simpl; now rewrite ?IH.
Qed.

Lemma sleeps_app t1 t2 : sleeps (t1 ++ t2) = sleeps t1 ++ sleeps t2.
Proof. apply omap_app. Qed.

Lemma skeleton_app t1 t2 : skeleton (t1 ++ t2) = skeleton t1 ++ skeleton t2.
Proof. apply omap_app. Qed.

(** *** One step of the retry controller *)

Lemma retry_loop_returns {A} (p : Retrying) (fn : M World A) k n fuel w t w1 a :
  fn fuel w = Some (t, w1, Ret a) ->
  retry_loop p fn k (S n) fuel w = Some (t, w1, Ret a).
Proof.
  intros Hfn. simpl. unfold bind, attempt. rewrite Hfn. simpl.
  now rewrite app_nil_r.
Qed.

Lemma retry_loop_raises {A} (p : Retrying) (fn : M World A) k n fuel w t w1 e :
  fn fuel w = Some (t, w1, Raise e) ->
  is_TryAgain e || retry_on p e = false ->
  retry_loop p fn k (S n) fuel w = Some (t, w1, Raise e).
Proof.
  intros Hfn Hno. simpl. unfold bind, attempt. rewrite Hfn, Hno. simpl.
  now rewrite app_nil_r.
Qed.

Lemma retry_loop_stops {A} (p : Retrying) (fn : M World A) k n fuel w t w1 e :
  fn fuel w = Some (t, w1, Raise e) ->
  is_TryAgain e || retry_on p e = true ->
  stop p k = true ->
  retry_loop p fn k (S n) fuel w = Some (t, w1, Raise (RetryError e)).
Proof.
  intros Hfn Hyes Hstop. simpl. unfold bind, attempt.
  rewrite Hfn, Hyes, Hstop. simpl. now rewrite app_nil_r.
Qed.

Lemma retry_loop_again {A} (p : Retrying) (fn : M World A) k n fuel w t w1 e :
  fn fuel w = Some (t, w1, Raise e) ->
  is_TryAgain e || retry_on p e = true ->
  stop p k = false ->
  retry_loop p fn k (S n) fuel w =
    match retry_loop p fn (S k) n fuel w1 with
    | None => None
    | Some (t2, w2, r) => Some (t ++ ESleep (wait p k) :: t2, w2, r)
    end.
Proof.
  intros Hfn Hyes Hstop. simpl. unfold bind, attempt, sleep.
  rewrite Hfn, Hyes, Hstop.
  destruct (retry_loop p fn (S k) n fuel w1) as [[[t2 w2] r] |]; reflexivity.
Qed.

(** What a run of the controller that got at least one attempt looks like. *)
Lemma retry_loop_run {A} (p : Retrying) (fn : M World A) k n fuel w t w' r :
  retry_loop p fn k (S n) fuel w = Some (t, w', r) ->
  exists t0 w0 r0,
    fn fuel w = Some (t0, w0, r0)
    /\ match r0 with
       | Ret a => t = t0 /\ w' = w0 /\ r = Ret a
       | Raise e =>
           if is_TryAgain e || retry_on p e then
             if stop p k then t = t0 /\ w' = w0 /\ r = Raise (RetryError e)
             else exists t2,
                 retry_loop p fn (S k) n fuel w0 = Some (t2, w', r)
                 /\ t = t0 ++ ESleep (wait p k) :: t2
           else t = t0 /\ w' = w0 /\ r = Raise e
       end.
Proof.
  intros Hrun.
  destruct (fn fuel w) as [[[t0 w0] r0] |] eqn:Hfn.
  - exists t0, w0, r0. split; [reflexivity |].
    destruct r0 as [a | e].
    + rewrite (retry_loop_returns p fn k n fuel w t0 w0 a Hfn) in Hrun.
      by simplify_eq.
    + destruct (is_TryAgain e || retry_on p e) eqn:Hretry.
      * destruct (stop p k) eqn:Hstop.
        -- rewrite (retry_loop_stops p fn k n fuel w t0 w0 e Hfn Hretry Hstop) in Hrun.
           by simplify_eq.
        -- rewrite (retry_loop_again p fn k n fuel w t0 w0 e Hfn Hretry Hstop) in Hrun.
           destruct (retry_loop p fn (S k) n fuel w0) as [[[t2 w2] r2] |];
             [| discriminate].
           exists t2. by simplify_eq.
      * rewrite (retry_loop_raises p fn k n fuel w t0 w0 e Hfn Hretry) in Hrun.
        by simplify_eq.
  - simpl in Hrun. unfold bind, attempt in Hrun. rewrite Hfn in Hrun. discriminate.
Qed.

(** Every delay [wait_exponential] computes lies between its bounds. *)
Lemma wait_exponential_bounds multiplier min max k :
  0 <= min <= max ->
  min <= wait_exponential multiplier min max k <= max.
Proof. unfold wait_exponential. lia. Qed.

(** *** One attempt of make_call *)

Lemma make_call_body_returns client func propagate_errors kw fuel w v w1 :
  execute (mkRequest client func kw) w = (Ret v, w1) ->
  make_call_body client func propagate_errors kw fuel w
  = Some ([ECall (mkRequest client func kw) (Ret v)], w1, Ret v).
Proof.
  intros Hex. unfold make_call_body, bind, attempt, call. now rewrite Hex.
Qed.

Lemma make_call_body_transient client func propagate_errors kw fuel w status content w1 :
  execute (mkRequest client func kw) w = (Raise (HttpError status content), w1) ->
  status_in status [300; 429; 500; 502; 503; 504] = true ->
  make_call_body client func propagate_errors kw fuel w
  = Some ([ECall (mkRequest client func kw) (Raise (HttpError status content))],
          w1, Raise TryAgain).
Proof.
  intros Hex Hin. unfold make_call_body, bind, attempt, call.
  now rewrite Hex, Hin.
Qed.

Lemma make_call_body_permanent client func propagate_errors kw fuel w status content w1 :
  execute (mkRequest client func kw) w = (Raise (HttpError status content), w1) ->
  status_in status [300; 429; 500; 502; 503; 504] = false ->
  make_call_body client func propagate_errors kw fuel w
  = Some ([ECall (mkRequest client func kw) (Raise (HttpError status content))],
          w1,
          Raise (if propagate_errors then HttpErrorClass
                 else request_failed content)).
Proof.
  intros Hex Hin.
  unfold make_call_body, bind, attempt, call, lift, raise, request_failed.
  rewrite Hex, Hin. destruct propagate_errors; [reflexivity |].
  destruct (json_loads content); reflexivity.
Qed.

(** The exceptions one attempt of [make_call] can end with are never
    instances of [HttpError]: the handler turns each into something else. *)
Lemma make_call_body_run client func propagate_errors kw fuel w t w1 r :
  make_call_body client func propagate_errors kw fuel w = Some (t, w1, r) ->
  exists o, t = [ECall (mkRequest client func kw) o]
            /\ execute (mkRequest client func kw) w = (o, w1)
            /\ match o with
               | Ret v => r = Ret v
               | Raise (HttpError status content) =>
                   if status_in status [300; 429; 500; 502; 503; 504]
                   then r = Raise TryAgain
                   else if propagate_errors then r = Raise HttpErrorClass
                   else r = Raise (request_failed content)
               | Raise e => r = Raise e
               end.
Proof.
  unfold make_call_body, bind, attempt, call, lift, raise, ret, request_failed.
  destruct (execute (mkRequest client func kw) w) as [o w2] eqn:Hex.
  intros Hrun. exists o.
  destruct o as [v | e]; simpl in Hrun; [by simplify_eq |].
  destruct e; simpl in Hrun; try by simplify_eq.
  destruct (status_in status _); simpl in Hrun; [by simplify_eq |].
  destruct propagate_errors; simpl in Hrun; [by simplify_eq |].
  destruct (json_loads content); simpl in Hrun; by simplify_eq.
Qed.

(** C1: when the service answers every send of the request with a transient
    status (300, 429, 500, 502, 503 or 504), [make_call] sends it exactly five
    times, sleeps between consecutive sends a delay within [2,5] each time
    (four sleeps), and then raises tenacity's [RetryError]: the caller gets a
    failure, and no send was answered. *)
Theorem make_call_retry_bound (client : Resource) (func : string)
    (propagate_errors : bool) (kw : gmap string Value) (fuel : nat) (w : World) :
  let req := mkRequest client func kw in
  (5 <= fuel)%nat ->
  always_transient req 5 w ->
  exists t w' d1 d2 d3 d4,
    make_call client func propagate_errors kw fuel w
    = Some (t, w', Raise (RetryError TryAgain))
    /\ skeleton t
       = [inl req; inr d1; inl req; inr d2; inl req; inr d3; inl req; inr d4;
          inl req]
    /\ Forall (fun d => 2 <= d <= 5) [d1; d2; d3; d4]
    /\ calls t = replicate 5 req
    /\ answered t = [].
Proof.
  intros req Hfuel Htransient.
  do 5 (destruct fuel as [| fuel]; [lia |]).
  set (n := S (S (S (S (S fuel))))).
  unfold make_call, retry, with_fuel.
  set (p := {| stop := stop_after_attempt 5; retry_on := retry_if_TryAgain;
               wait := wait_exponential 1 2 5 |}).
  set (fn := make_call_body client func propagate_errors kw).
  assert (Hstep : forall m w0,
             always_transient req 1 w0 ->
             exists s c w1,
               execute req w0 = (Raise (HttpError s c), w1)
               /\ fn n w0 = Some ([ECall req (Raise (HttpError s c))], w1, Raise TryAgain)
               /\ (always_transient req (S m) w0 -> always_transient req m w1)).
  { intros m w0 H1. simpl in H1.
    destruct (execute req w0) as [[v | e] w1] eqn:Hex; try tauto.
    destruct e; try tauto. destruct H1 as [Hin _].
    exists status, content, w1. repeat split.
    - now apply make_call_body_transient.
    - simpl. rewrite Hex. tauto. }
  assert (Hdown : forall m w0, always_transient req (S m) w0 -> always_transient req 1 w0).
  { intros m w0. simpl. destruct (execute req w0) as [[v | e] w1]; try tauto.
    destruct e; tauto. }
  destruct (Hstep 4%nat w (Hdown _ _ Htransient)) as (s1 & c1 & w1 & _ & Hfn1 & Hnext1).
  specialize (Hnext1 Htransient).
  destruct (Hstep 3%nat w1 (Hdown _ _ Hnext1)) as (s2 & c2 & w2 & _ & Hfn2 & Hnext2).
  specialize (Hnext2 Hnext1).
  destruct (Hstep 2%nat w2 (Hdown _ _ Hnext2)) as (s3 & c3 & w3 & _ & Hfn3 & Hnext3).
  specialize (Hnext3 Hnext2).
  destruct (Hstep 1%nat w3 (Hdown _ _ Hnext3)) as (s4 & c4 & w4 & _ & Hfn4 & Hnext4).
  specialize (Hnext4 Hnext3).
  destruct (Hstep 0%nat w4 (Hdown _ _ Hnext4)) as (s5 & c5 & w5 & _ & Hfn5 & _).
  exists ([ECall req (Raise (HttpError s1 c1)); ESleep (wait p 1);
           ECall req (Raise (HttpError s2 c2)); ESleep (wait p 2);
           ECall req (Raise (HttpError s3 c3)); ESleep (wait p 3);
           ECall req (Raise (HttpError s4 c4)); ESleep (wait p 4);
           ECall req (Raise (HttpError s5 c5))]),
    w5, (wait p 1), (wait p 2), (wait p 3), (wait p 4).
  split.
  - unfold n at 1.
    rewrite (retry_loop_again p fn 1 _ n w _ w1 TryAgain Hfn1 eq_refl eq_refl).
    rewrite (retry_loop_again p fn 2 _ n w1 _ w2 TryAgain Hfn2 eq_refl eq_refl).
    rewrite (retry_loop_again p fn 3 _ n w2 _ w3 TryAgain Hfn3 eq_refl eq_refl).
    rewrite (retry_loop_again p fn 4 _ n w3 _ w4 TryAgain Hfn4 eq_refl eq_refl).
    rewrite (retry_loop_stops p fn 5 _ n w4 _ w5 TryAgain Hfn5 eq_refl eq_refl).
    reflexivity.
  - repeat split; try reflexivity.
    repeat constructor; apply (wait_exponential_bounds 1 2 5); lia.
Qed.

End Runs.

Lemma make_call_retry_bound_witness :
  let kw : gmap string Value := {[ "fileId" := VStr "f1" ]} in
  let w := [failure 503; failure 429; failure 500; failure 502; failure 504] in
  exists t w' d1 d2 d3 d4,
    make_call files "get" false kw 5%nat w
    = Some (t, w', Raise (RetryError TryAgain))
    /\ skeleton t
       = [inl (mkRequest files "get" kw); inr d1; inl (mkRequest files "get" kw); inr d2;
          inl (mkRequest files "get" kw); inr d3; inl (mkRequest files "get" kw); inr d4;
          inl (mkRequest files "get" kw)]
    /\ Forall (fun d => 2 <= d <= 5) [d1; d2; d3; d4]
    /\ calls t = replicate 5 (mkRequest files "get" kw)
    /\ answered t = [].
Proof.
  intros kw w.
  apply (make_call_retry_bound files "get" false kw 5%nat w).
  - lia.
  - simpl. repeat split.
Defined.


(** ** Every run of the call executor *)

Section Executor.

Context {World : Type} `{Env : Environment World}.

Lemma request_failed_not_retried content :
  is_TryAgain (request_failed content) = false.
Proof. unfold request_failed. now destruct (json_loads content). Qed.

(** What one attempt leaves: one send, answered exactly when the attempt
    returns; an attempt never ends with an [HttpError] instance. *)
Lemma make_call_body_trace client func propagate_errors kw fuel w t w1 r :
  make_call_body client func propagate_errors kw fuel w = Some (t, w1, r) ->
  calls t = [mkRequest client func kw]
  /\ sleeps t = []
  /\ answers t = match r with
                 | Ret v => [(mkRequest client func kw, v)]
                 | Raise _ => []
                 end
  /\ (forall status content, r <> Raise (HttpError status content)).
Proof.
  intros Hrun. apply make_call_body_run in Hrun as (o & -> & _ & Ho).
  destruct o as [v | e].
  - subst r. repeat split; discriminate.
  - assert (Hr : exists e', r = Raise e' /\ forall s c, e' <> HttpError s c).
    { destruct e; try (eexists; split; [exact Ho | discriminate]).
      destruct (status_in status _); [eexists; split; [exact Ho | discriminate] |].
      destruct propagate_errors; [eexists; split; [exact Ho | discriminate] |].
      eexists; split; [exact Ho |]. intros s c Heq.
      pose proof (request_failed_not_retried content) as Hnot.
      unfold request_failed in *. destruct (json_loads content); discriminate. }
    destruct Hr as (e' & -> & Hne). repeat split.
    intros s c [= Heq]. now apply (Hne s c).
Qed.

Lemma make_call_loop_run client func propagate_errors kw n k fuel w t w1 r :
  retry_loop
    {| stop := stop_after_attempt 5; retry_on := retry_if_TryAgain;
       wait := wait_exponential 1 2 5 |}
    (make_call_body client func propagate_errors kw) k n fuel w
  = Some (t, w1, r) ->
  sends_only (mkRequest client func kw) t
  /\ answers t = match r with
                 | Ret v => [(mkRequest client func kw, v)]
                 | Raise _ => []
                 end
  /\ (forall status content, r <> Raise (HttpError status content))
  /\ Forall (fun d => 2 <= d <= 5) (sleeps t).
Proof.
  revert k w t w1 r. induction n as [| n IH]; intros k w t w1 r; [discriminate |].
  intros Hrun.
  apply retry_loop_run in Hrun as (t0 & w0 & r0 & Hbody & Hrest).
  apply make_call_body_trace in Hbody as (Hcalls & Hsleeps & Hans & Hne).
  unfold sends_only in *. simpl in Hrest.
  destruct r0 as [v | e].
  - destruct Hrest as (-> & -> & ->).
    rewrite Hcalls, Hsleeps. repeat split; auto; discriminate.
  - destruct (is_TryAgain e || retry_if_TryAgain e).
    + destruct (stop_after_attempt 5 k).
      * destruct Hrest as (-> & -> & ->).
        rewrite Hcalls, Hsleeps. repeat split; auto; discriminate.
      * destruct Hrest as (t2 & Hrec & ->).
        apply IH in Hrec as (Hs2 & Ha2 & Hne2 & Hd2).
        change (t0 ++ ESleep (wait_exponential 1 2 5 k) :: t2)
          with (t0 ++ [ESleep (wait_exponential 1 2 5 k)] ++ t2).
        rewrite !calls_app, !answers_app, !sleeps_app, Hcalls, Hans, Hsleeps.
        simpl. repeat split; auto.
        constructor; [| exact Hd2].
        apply (wait_exponential_bounds 1 2 5); lia.
    + destruct Hrest as (-> & -> & ->).
      rewrite Hcalls, Hsleeps. repeat split; auto.
Qed.

(** Every run of [make_call]: all its sends are the one request, the
    request is answered exactly when the call returns, the exception raised
    is never an [HttpError] instance, and every sleep is within [2,5]. *)
Lemma make_call_run client func propagate_errors kw fuel w t w1 r :
  make_call client func propagate_errors kw fuel w = Some (t, w1, r) ->
  sends_only (mkRequest client func kw) t
  /\ answers t = match r with
                 | Ret v => [(mkRequest client func kw, v)]
                 | Raise _ => []
                 end
  /\ (forall status content, r <> Raise (HttpError status content))
  /\ Forall (fun d => 2 <= d <= 5) (sleeps t).
Proof. apply make_call_loop_run. Qed.

(** A response that is not one of the transient statuses ends the call at
    once: one send, no sleep, and a failure. *)
Lemma make_call_permanent client func propagate_errors kw fuel w status content w1 :
  (1 <= fuel)%nat ->
  execute (mkRequest client func kw) w = (Raise (HttpError status content), w1) ->
  status_in status [300; 429; 500; 502; 503; 504] = false ->
  make_call client func propagate_errors kw fuel w
  = Some ([ECall (mkRequest client func kw) (Raise (HttpError status content))],
          w1,
          Raise (if propagate_errors then HttpErrorClass
                 else request_failed content)).
Proof.
  intros Hfuel Hex Hin. destruct fuel as [| n]; [lia |].
  unfold make_call, retry, with_fuel.
  apply retry_loop_raises.
  - now apply make_call_body_permanent.
  - destruct propagate_errors; [reflexivity |].
    simpl. unfold retry_if_TryAgain. now rewrite request_failed_not_retried.
Qed.

(** A first answer ends the call at once as well. *)
Lemma make_call_returns client func propagate_errors kw fuel w v w1 :
  (1 <= fuel)%nat ->
  execute (mkRequest client func kw) w = (Ret v, w1) ->
  make_call client func propagate_errors kw fuel w
  = Some ([ECall (mkRequest client func kw) (Ret v)], w1, Ret v).
Proof.
  intros Hfuel Hex. destruct fuel as [| n]; [lia |].
  unfold make_call, retry, with_fuel.
  apply retry_loop_returns. now apply make_call_body_returns.
Qed.

(** [make_call] ends: five rounds of fuel are enough whatever the service
    answers. *)
Lemma make_call_body_total client func propagate_errors kw fuel w :
  exists t w1 r,
    make_call_body client func propagate_errors kw fuel w = Some (t, w1, r).
Proof.
  unfold make_call_body, bind, attempt, call, lift, raise, ret.
  destruct (execute (mkRequest client func kw) w) as [[v | e] w1]; simpl;
    [by eauto |].
  destruct e; simpl; try by eauto.
  destruct (status_in status _); simpl; [by eauto |].
  destruct propagate_errors; simpl; [by eauto |].
  destruct (json_loads content); simpl; by eauto.
Qed.

Lemma make_call_loop_total client func propagate_errors kw n k fuel w :
  (1 <= n)%nat -> (6 <= k + n)%nat ->
  exists t w1 r,
    retry_loop
      {| stop := stop_after_attempt 5; retry_on := retry_if_TryAgain;
         wait := wait_exponential 1 2 5 |}
      (make_call_body client func propagate_errors kw) k n fuel w
    = Some (t, w1, r).
Proof.
  revert k w. induction n as [| n IH]; intros k w Hn Hk; [lia |].
  destruct (make_call_body_total client func propagate_errors kw fuel w)
    as (t0 & w0 & [v | e] & Hbody).
  - erewrite retry_loop_returns by exact Hbody. eauto.
  - destruct (is_TryAgain e || retry_if_TryAgain e) eqn:Hretry.
    + destruct (stop_after_attempt 5 k) eqn:Hstop.
      * erewrite retry_loop_stops; eauto.
      * erewrite retry_loop_again; eauto.
        unfold stop_after_attempt in Hstop. apply Nat.leb_gt in Hstop.
        destruct (IH (S k) w0) as (t2 & w2 & r2 & ->); [lia | lia |]. eauto.
    + erewrite retry_loop_raises; eauto.
Qed.

Lemma make_call_total client func propagate_errors kw fuel w :
  (5 <= fuel)%nat ->
  exists t w1 r, make_call client func propagate_errors kw fuel w = Some (t, w1, r).
Proof.
  intros Hfuel. unfold make_call, retry, with_fuel.
  apply make_call_loop_total; lia.
Qed.

(** The sends and sleeps of the controller, counted. *)
Lemma make_call_loop_count client func propagate_errors kw n k fuel (w : World)
    t w1 r :
  (1 <= k <= 5)%nat ->
  retry_loop
    {| stop := stop_after_attempt 5; retry_on := retry_if_TryAgain;
       wait := wait_exponential 1 2 5 |}
    (make_call_body client func propagate_errors kw) k n fuel w
  = Some (t, w1, r) ->
  (1 <= length (calls t))%nat
  /\ (length (calls t) + k <= 6)%nat
  /\ S (length (sleeps t)) = length (calls t).
Proof.
  revert k w t. induction n as [| n IH]; intros k w t Hk Hrun; [discriminate |].
  apply retry_loop_run in Hrun as (t0 & w0 & r0 & Hbody & Hrest).
  apply make_call_body_trace in Hbody as (Hcalls & Hsleeps & _).
  simpl in Hrest.
  assert (Hone : (1 <= length (calls t0))%nat
                 /\ (length (calls t0) + k <= 6)%nat
                 /\ S (length (sleeps t0)) = length (calls t0))
    by (rewrite Hcalls, Hsleeps; simpl; lia).
  destruct r0 as [v | e].
  - now destruct Hrest as (-> & _).
  - destruct (is_TryAgain e || retry_if_TryAgain e).
    + destruct (stop_after_attempt 5 k) eqn:Hstop.
      * now destruct Hrest as (-> & _).
      * destruct Hrest as (t2 & Hrec & ->).
        unfold stop_after_attempt in Hstop. apply Nat.leb_gt in Hstop.
        apply IH in Hrec as (H1 & H2 & H3); [| lia].
        change (t0 ++ ESleep (wait_exponential 1 2 5 k) :: t2)
          with (t0 ++ [ESleep (wait_exponential 1 2 5 k)] ++ t2).
        rewrite !calls_app, !sleeps_app, !length_app, Hcalls, Hsleeps.
        simpl. lia.
    + now destruct Hrest as (-> & _).
Qed.

(** Every run of [make_call] sends its request at least once and at most
    five times. *)
Lemma make_call_sends client func propagate_errors kw fuel (w : World) t w1 r :
  make_call client func propagate_errors kw fuel w = Some (t, w1, r) ->
  (1 <= length (calls t) <= 5)%nat.
Proof.
  intros Hrun.
  destruct (make_call_loop_count _ _ _ _ _ _ _ _ _ _ _
              (conj (le_n 1) (le_S _ _ (le_S _ _ (le_S _ _ (le_S _ _ (le_n 1))))))
              Hrun) as (H1 & H2 & _).
  lia.
Qed.

End Executor.

(** ** Single operations *)

Section Operations.

Context {World : Type} `{Env : Environment World}.

(** C10: [delete_file] does not look at its [team_drive_id] argument: for
    any two values of it the computation is the same (same requests, same
    result, same world left), and every request it sends is the delete
    request of the file, whose parameters are [fileId] and the constant
    [supportsTeamDrives] only. *)
Theorem delete_file_ignores_team_drive_id (team_drive_id1 team_drive_id2 file_id : Value) :
  delete_file (World := World) team_drive_id1 file_id
  = delete_file team_drive_id2 file_id
  /\ (forall fuel w t w1 r,
        delete_file team_drive_id1 file_id fuel w = Some (t, w1, r) ->
        sends_only (delete_file_request file_id) t
        /\ answers t = match r with
                       | Ret v => [(delete_file_request file_id, v)]
                       | Raise _ => []
                       end)
  /\ dom (kwargs (delete_file_request file_id))
     = ({["fileId"; "supportsTeamDrives"]} : gset string).
Proof.
  split; [reflexivity |]. split.
  - intros fuel w t w1 r Hrun. unfold delete_file in Hrun.
    apply make_call_run in Hrun as (Hs & Ha & _). auto.
  - unfold delete_file_request. simpl. set_solver.
Qed.

(** C8: [move_file] first reads the parents of the file: that phase is the
    executor's call on the read request, which is sent at least once.  When
    the read fails nothing else is sent.  When it answers [f], and the
    parents of [f] join to [previous_parents], the rest of the run is one
    call of the executor on a single update request: its [addParents] is
    the destination, its [removeParents] the comma-joined previous parents.
    That request is sent (at least once, at most five times when the
    service answers with transient statuses), every later send is that
    request, and it is answered exactly when [move_file] returns; when the
    service answers it at once, it is sent exactly once. *)
Theorem move_file_update_request (team_drive_id file_id : Value)
    (fuel : nat) (w : World) t1 w1 r1 :
  (5 <= fuel)%nat ->
  make_call files "get" false (kwargs (read_parents_request file_id)) fuel w
  = Some (t1, w1, r1) ->
  sends_only (read_parents_request file_id) t1
  /\ (1 <= length (calls t1))%nat
  /\ match r1 with
     | Raise e => move_file team_drive_id file_id fuel w = Some (t1, w1, Raise e)
     | Ret f =>
         answers t1 = [(read_parents_request file_id, f)]
         /\ match previous_parents_of f with
            | Raise e =>
                move_file team_drive_id file_id fuel w = Some (t1, w1, Raise e)
            | Ret previous_parents =>
                let update :=
                  update_parents_request team_drive_id file_id previous_parents in
                exists t2 w2 r,
                  move_file team_drive_id file_id fuel w = Some (t1 ++ t2, w2, r)
                  /\ make_call files "update" false (kwargs update) fuel w1
                     = Some (t2, w2, r)
                  /\ sends_only update t2
                  /\ (1 <= length (calls t2) <= 5)%nat
                  /\ answers t2 = match r with
                                  | Ret v => [(update, v)]
                                  | Raise _ => []
                                  end
                  /\ (forall v w',
                        execute update w1 = (Ret v, w') ->
                        t2 = [ECall update (Ret v)] /\ w2 = w' /\ r = Ret v)
                  /\ kwargs update !! "addParents" = Some team_drive_id
                  /\ kwargs update !! "removeParents"
                     = Some (VStr previous_parents)
            end
     end.
Proof.
  intros Hfuel Hread.
  pose proof (make_call_run _ _ _ _ _ _ _ _ _ Hread) as (Hs1 & Ha1 & _).
  pose proof (make_call_sends _ _ _ _ _ _ _ _ _ Hread) as (Hn1 & _).
  split; [exact Hs1 |]. split; [exact Hn1 |].
  unfold move_file. simpl in Hread.
  destruct r1 as [f | e].
  - split; [exact Ha1 |].
    rewrite (bind_ret_run _ _ _ _ _ _ _ Hread).
    unfold previous_parents_of.
    destruct (dict_get f "parents") as [parents | e].
    + rewrite bind_lift_ret.
      destruct (join "," parents) as [previous_parents | e].
      * rewrite bind_lift_ret.
        destruct (make_call_total files "update" false
                    (kwargs (update_parents_request team_drive_id file_id
                               previous_parents)) fuel w1 Hfuel)
          as (t2 & w2 & r & Hupdate).
        exists t2, w2, r.
        pose proof (make_call_run _ _ _ _ _ _ _ _ _ Hupdate) as (Hs2 & Ha2 & _).
        pose proof (make_call_sends _ _ _ _ _ _ _ _ _ Hupdate) as Hn2.
        assert (Honce : forall v w',
                  execute (update_parents_request team_drive_id file_id
                             previous_parents) w1 = (Ret v, w') ->
                  t2 = [ECall (update_parents_request team_drive_id file_id
                                 previous_parents) (Ret v)]
                  /\ w2 = w' /\ r = Ret v).
        { intros v w' Hex.
          pose proof (make_call_returns files "update" false
                        (kwargs (update_parents_request team_drive_id file_id
                                   previous_parents)) fuel w1 v w'
                        ltac:(lia) Hex) as Hret.
          rewrite Hupdate in Hret. injection Hret as -> -> ->. auto. }
        split; [| split; [exact Hupdate |]].
        -- simpl in Hupdate. now rewrite Hupdate.
        -- split; [exact Hs2 |]. split; [exact Hn2 |]. split; [exact Ha2 |].
           split; [exact Honce |]. split; reflexivity.
      * rewrite bind_lift_raise. now rewrite app_nil_r.
    + rewrite bind_lift_raise. now rewrite app_nil_r.
  - now apply bind_raise_run.
Qed.

(** An entry with another address is skipped: nothing is sent for it. *)
Lemma remove_if_address_skips (email : string) (team_drive_id p : Value)
    (fuel : nat) (w : World) :
  has_address email p = Some false ->
  remove_if_address email team_drive_id p fuel w = Some ([], w, Ret tt).
Proof.
  unfold has_address, remove_if_address. intros Hp.
  destruct (getitem p "emailAddress") as [address | e]; [| discriminate].
  injection Hp as Hp. now rewrite bind_lift_ret, Hp.
Qed.

Lemma scan_skips (email : string) (team_drive_id : Value) (entries : list Value)
    (fuel : nat) (w : World) :
  Forall (fun p => has_address email p = Some false) entries ->
  for_each entries (remove_if_address email team_drive_id) fuel w
  = Some ([], w, Ret tt).
Proof.
  induction 1 as [| p entries Hp _ IH]; [reflexivity |].
  simpl.
  rewrite (bind_ret_run _ _ _ _ _ _ _
             (remove_if_address_skips email team_drive_id p fuel w Hp)).
  now rewrite IH.
Qed.

(** An entry with the address is deleted by its id. *)
Lemma remove_if_address_deletes (email : string) (team_drive_id p id : Value)
    (fuel : nat) (w : World) t w1 r :
  has_address email p = Some true ->
  getitem p "id" = Ret id ->
  make_call permissions "delete" false
    (kwargs (delete_permission_request team_drive_id id)) fuel w
  = Some (t, w1, r) ->
  remove_if_address email team_drive_id p fuel w
  = Some (t, w1, match r with Ret _ => Ret tt | Raise e => Raise e end).
Proof.
  intros Hp Hid Hdelete. unfold has_address in Hp.
  destruct (getitem p "emailAddress") as [address | e] eqn:Haddr; [| discriminate].
  injection Hp as Hp. unfold remove_if_address.
  rewrite Haddr, bind_lift_ret, Hp, Hid, bind_lift_ret.
  simpl in Hdelete. unfold bind. rewrite Hdelete.
  destruct r; simpl; now rewrite ?app_nil_r.
Qed.

(** Without an entry that carries the address the scan sends nothing (it
    stops with a [KeyError] at an entry that has no address at all). *)
Lemma scan_sends_nothing (email : string) (team_drive_id : Value)
    (entries : list Value) (fuel : nat) (w : World) :
  Forall (fun p => has_address email p <> Some true) entries ->
  exists r,
    for_each entries (remove_if_address email team_drive_id) fuel w
    = Some ([], w, r).
Proof.
  induction 1 as [| p entries Hp _ IH]; [now exists (Ret tt) |].
  simpl. destruct (has_address email p) as [[] |] eqn:Haddress; [congruence | |].
  - rewrite (bind_ret_run _ _ _ _ _ _ _
               (remove_if_address_skips email team_drive_id p fuel w Haddress)).
    destruct IH as (r & ->). now exists r.
  - unfold has_address in Haddress.
    destruct (getitem p "emailAddress") as [address | e] eqn:Hget; [discriminate |].
    exists (Raise e). unfold remove_if_address. rewrite Hget.
    unfold bind at 1. now rewrite bind_lift_raise.
Qed.

Lemma scan_skips_prefix (email : string) (team_drive_id : Value)
    (before rest : list Value) (fuel : nat) (w : World) :
  Forall (fun p => has_address email p = Some false) before ->
  for_each (before ++ rest) (remove_if_address email team_drive_id) fuel w
  = for_each rest (remove_if_address email team_drive_id) fuel w.
Proof.
  induction 1 as [| p before Hp _ IH]; [reflexivity |].
  simpl.
  rewrite (bind_ret_run _ _ _ _ _ _ _
             (remove_if_address_skips email team_drive_id p fuel w Hp)).
  rewrite IH.
  now destruct (for_each rest _ fuel w) as [[[t2 w2] r] |].
Qed.

(** An entry that carries no address at all stops the scan: reading its
    [emailAddress] raises, nothing is sent for it, and the entries after it
    are not looked at. *)
Lemma scan_stops_without_address (email : string) (team_drive_id : Value)
    (pre : list Value) (p : Value) (post : list Value) e
    (fuel : nat) (w : World) :
  Forall (fun p => has_address email p = Some false) pre ->
  getitem p "emailAddress" = Raise e ->
  for_each (pre ++ p :: post) (remove_if_address email team_drive_id) fuel w
  = Some ([], w, Raise e).
Proof.
  intros Hpre Hp. rewrite scan_skips_prefix by exact Hpre.
  cbn [for_each]. unfold remove_if_address at 1. rewrite Hp.
  unfold bind at 1. now rewrite bind_lift_raise.
Qed.

(** What holds of [remove_permission] as long as the entries scanned carry
    an address: it lists the permissions of the target (every send
    of that phase is the listing request) and scans the entries in order.
    When the listing fails nothing else is sent.  When no entry carries the
    address, nothing is sent after the listing: no delete call; and when
    every entry carries another address the call returns, a no-op.
    Otherwise, when the entries before it carry another address, the first
    entry that carries the address is the first
    one deleted: the sends that follow the listing are the delete request
    of its id, and a failure of that delete ends the call.  When it is the
    only entry that carries the address, that delete is all that is sent
    after the listing. *)
Lemma remove_permission_scan (email : string) (team_drive_id : Value)
    (fuel : nat) (w : World) t1 w1 r1 :
  (5 <= fuel)%nat ->
  make_call permissions "list" false
    (kwargs (list_permissions_request team_drive_id)) fuel w
  = Some (t1, w1, r1) ->
  sends_only (list_permissions_request team_drive_id) t1
  /\ match r1 with
     | Raise e =>
         remove_permission email team_drive_id fuel w = Some (t1, w1, Raise e)
     | Ret listed =>
         answers t1 = [(list_permissions_request team_drive_id, listed)]
         /\ forall entries,
             permission_entries listed = Ret entries ->
             (Forall (fun p => has_address email p <> Some true) entries ->
              exists r,
                remove_permission email team_drive_id fuel w = Some (t1, w1, r))
             /\ (Forall (fun p => has_address email p = Some false) entries ->
                 remove_permission email team_drive_id fuel w
                 = Some (t1, w1, Ret VNone))
             /\ (forall before p after id,
                    entries = before ++ p :: after ->
                    Forall (fun p => has_address email p = Some false) before ->
                    has_address email p = Some true ->
                    getitem p "id" = Ret id ->
                    let delete := delete_permission_request team_drive_id id in
                    exists t2 w2 r2,
                      make_call permissions "delete" false (kwargs delete) fuel w1
                      = Some (t2, w2, r2)
                      /\ sends_only delete t2
                      /\ answers t2 = match r2 with
                                      | Ret v => [(delete, v)]
                                      | Raise _ => []
                                      end
                      /\ (forall t w' r,
                            remove_permission email team_drive_id fuel w
                            = Some (t, w', r) ->
                            exists t3, t = t1 ++ t2 ++ t3)
                      /\ (forall e, r2 = Raise e ->
                            remove_permission email team_drive_id fuel w
                            = Some (t1 ++ t2, w2, Raise e))
                      /\ (forall v, r2 = Ret v ->
                            Forall (fun p => has_address email p = Some false) after ->
                            remove_permission email team_drive_id fuel w
                            = Some (t1 ++ t2, w2, Ret VNone)))
     end.
Proof.
  intros Hfuel Hlist.
  pose proof (make_call_run _ _ _ _ _ _ _ _ _ Hlist) as (Hs1 & Ha1 & _).
  split; [exact Hs1 |].
  unfold remove_permission. simpl in Hlist.
  destruct r1 as [listed | e]; [| now apply bind_raise_run].
  split; [exact Ha1 |].
  intros entries Hentries. unfold permission_entries in Hentries.
  rewrite (bind_ret_run _ _ _ _ _ _ _ Hlist). cbv beta.
  destruct (getitem listed "permissions") as [ps | e]; [| discriminate].
  rewrite bind_lift_ret, Hentries, bind_lift_ret.
  split; [| split].
  - intros Hnone.
    destruct (scan_sends_nothing email team_drive_id entries fuel w1 Hnone)
      as ([[] | e] & Hscan).
    + rewrite (bind_ret_run _ _ _ _ _ _ _ Hscan). unfold ret.
      exists (Ret VNone). now rewrite app_nil_r.
    + rewrite (bind_raise_run _ _ _ _ _ _ _ Hscan).
      exists (Raise e). now rewrite app_nil_r.
  - intros Hnone.
    rewrite (bind_ret_run _ _ _ _ _ _ _
               (scan_skips email team_drive_id entries fuel w1 Hnone)).
    unfold ret. now rewrite app_nil_r.
  - intros pre p post id -> Hbefore Hp Hid.
    set (delete := delete_permission_request team_drive_id id).
    destruct (make_call_total permissions "delete" false (kwargs delete)
                fuel w1 Hfuel) as (t2 & w2 & r2 & Hdelete).
    pose proof (make_call_run _ _ _ _ _ _ _ _ _ Hdelete) as (Hs2 & Ha2 & _).
    exists t2, w2, r2. split; [exact Hdelete |]. split; [exact Hs2 |].
    split; [exact Ha2 |].
    pose proof (remove_if_address_deletes email team_drive_id p id fuel w1
                  t2 w2 r2 Hp Hid Hdelete) as Hstep.
    assert (Hfor :
      for_each (pre ++ p :: post) (remove_if_address email team_drive_id) fuel w1
      = match r2 with
        | Raise e => Some (t2, w2, Raise e)
        | Ret _ =>
            match for_each post (remove_if_address email team_drive_id) fuel w2 with
            | Some (t3, w3, r3) => Some (t2 ++ t3, w3, r3)
            | None => None
            end
        end).
    { rewrite scan_skips_prefix by exact Hbefore. simpl for_each.
      destruct r2 as [v | e].
      - now rewrite (bind_ret_run _ _ _ _ _ _ _ Hstep).
      - now rewrite (bind_raise_run _ _ _ _ _ _ _ Hstep). }
    unfold bind. rewrite Hfor. clear Hfor.
    destruct r2 as [v | e].
    + split; [| split; [discriminate |]].
      * intros t w' r.
        destruct (for_each post _ fuel w2) as [[[t3 w3] [[] | e3]] |];
          simpl; intros [= <- <- <-]; eexists; now rewrite <- ?app_assoc.
      * intros v' _ Hafter. rewrite scan_skips by exact Hafter.
        simpl. now rewrite !app_nil_r.
    + split; [| split; [| discriminate]].
      * intros t w' r [= <- <- <-]. exists []. now rewrite app_nil_r.
      * now intros e' [= <-].
Qed.

End Operations.

(** The spec's example: current parents [A] and [B], destination [C].  The
    read is sent, then the update with [addParents=C] and
    [removeParents=A,B], once, and its answer is the result. *)
Lemma move_file_update_request_witness :
  let f := VDict {[ "parents" := VList [VStr "A"; VStr "B"] ]} in
  let moved := VDict {[ "id" := VStr "F" ]} in
  let read := read_parents_request (VStr "F") in
  let update := update_parents_request (VStr "C") (VStr "F") "A,B" in
  move_file (VStr "C") (VStr "F") 5%nat [Ret f; Ret moved]
  = Some ([ECall read (Ret f)] ++ [ECall update (Ret moved)], [], Ret moved)
  /\ calls ([ECall read (Ret f)] ++ [ECall update (Ret moved)]) = [read; update]
  /\ kwargs update !! "addParents" = Some (VStr "C")
  /\ kwargs update !! "removeParents" = Some (VStr "A,B").
Proof.
  intros f moved read update.
  assert (Hread :
    make_call files "get" false (kwargs read) 5%nat [Ret f; Ret moved]
    = Some ([ECall read (Ret f)], [Ret moved], Ret f))
    by (vm_compute; reflexivity).
  destruct (move_file_update_request (VStr "C") (VStr "F") 5%nat _ _ _ _
              (le_n 5) Hread)
    as (_ & _ & _ & t2 & w2 & r & Hmove & _ & _ & _ & _ & Honce & Hadd & Hremove).
  destruct (Honce moved [] eq_refl) as (-> & -> & ->).
  split; [exact Hmove |]. split; [reflexivity |].
  split; [exact Hadd | exact Hremove].
Defined.

(** Three entries with an address each, the second one carries the address
    asked for: it is the one deleted, and nothing else is sent. *)
Lemma remove_permission_scan_witness :
  let entry (id address : string) : Value :=
    VDict {[ "id" := VStr id; "emailAddress" := VStr address ]} in
  let listed :=
    VDict {[ "permissions" :=
               VList [entry "p1" "ann@example.com"; entry "p2" "bob@example.com";
                      entry "p3" "cy@example.com"] ]} in
  remove_permission "bob@example.com" (VStr "D") 5%nat [Ret listed; Ret VNone]
  = Some ([ECall (list_permissions_request (VStr "D")) (Ret listed);
           ECall (delete_permission_request (VStr "D") (VStr "p2")) (Ret VNone)],
          [], Ret VNone).
Proof.
  intros entry listed.
  assert (Hlist :
    make_call permissions "list" false (kwargs (list_permissions_request (VStr "D")))
      5%nat [Ret listed; Ret VNone]
    = Some ([ECall (list_permissions_request (VStr "D")) (Ret listed)],
            [Ret VNone], Ret listed))
    by (vm_compute; reflexivity).
  destruct (remove_permission_scan "bob@example.com" (VStr "D") 5%nat _ _ _ _
              (le_n 5) Hlist) as (_ & _ & Hentries).
  destruct (Hentries
              [entry "p1" "ann@example.com"; entry "p2" "bob@example.com";
               entry "p3" "cy@example.com"] eq_refl) as (_ & _ & Hmatch).
  destruct (Hmatch [entry "p1" "ann@example.com"] (entry "p2" "bob@example.com")
              [entry "p3" "cy@example.com"] (VStr "p2") eq_refl)
    as (t2 & w2 & r2 & Hdelete & _ & _ & _ & _ & Hdone).
  - repeat constructor.
  - reflexivity.
  - reflexivity.
  - vm_compute in Hdelete. injection Hdelete as <- <- <-.
    apply (Hdone VNone eq_refl). repeat constructor.
Defined.

(** ** The pagination wrapper *)

Section Pagination.

Context {World : Type} `{Env : Environment World}.

Lemma bind_run_ret {A B} (m : M World A) (f : A -> M World B) fuel w t w' b :
  bind m f fuel w = Some (t, w', Ret b) ->
  exists t1 w1 a t2,
    m fuel w = Some (t1, w1, Ret a)
    /\ f a fuel w1 = Some (t2, w', Ret b) /\ t = t1 ++ t2.
Proof.
  intros Hrun. apply bind_run in Hrun as [Hok | (e & _ & Hraise)];
    [exact Hok | discriminate].
Qed.

Lemma lift_run_ret {A} (r : Res A) fuel (w : World) t w' a :
  lift r fuel w = Some (t, w', Ret a) -> r = Ret a /\ t = [] /\ w' = w.
Proof. unfold lift. intros [= <- <- ->]. auto. Qed.

Lemma ret_run {A} (x : A) fuel (w : World) t w' r :
  ret x fuel w = Some (t, w', r) -> r = Ret x /\ t = [] /\ w' = w.
Proof. unfold ret. intros [= <- <- <-]. auto. Qed.

(** The loop, from an accumulated result [acc]. *)
Lemma paginated_loop_run data_key (func : gmap string Value -> M World Value)
    limit n kw acc fuel w t w' results :
  paginated_loop data_key func limit kw acc n fuel w = Some (t, w', Ret results) ->
  exists earlier last earlier_items last_items,
    serves func fuel kw w (earlier ++ [last]) t w'
    /\ Forall2 (fun response items => page_items data_key response = Ret items)
         earlier earlier_items
    /\ page_items data_key last = Ret last_items
    /\ results = acc ++ concat earlier_items ++ last_items
    /\ Forall (fun response => has_next response = true) earlier
    /\ (forall k, (1 <= k <= length earlier)%nat ->
          Z.of_nat (length (acc ++ concat (take k earlier_items))) <= limit)
    /\ (has_next last = false \/ limit < Z.of_nat (length results))
    /\ (length earlier < n)%nat.
Proof.
  revert kw acc w t. induction n as [| n IH]; intros kw acc w t; [discriminate |].
  simpl. intros Hrun.
  apply bind_run_ret in Hrun as (t0 & w0 & kw' & t1 & Hkw & Hrun & ->).
  apply lift_run_ret in Hkw as (Hkw & -> & ->).
  apply bind_run_ret in Hrun as (t2 & w2 & response & t3 & Hfunc & Hrun & ->).
  apply bind_run_ret in Hrun as (t4 & w4 & page & t5 & Hpage & Hrun & ->).
  apply lift_run_ret in Hpage as (Hpage & -> & ->).
  apply bind_run_ret in Hrun as (t6 & w6 & items & t7 & Hitems & Hrun & ->).
  apply lift_run_ret in Hitems as (Hitems & -> & ->).
  apply bind_run_ret in Hrun as (t8 & w8 & token & t9 & Htoken & Hrun & ->).
  apply lift_run_ret in Htoken as (Htoken & -> & ->).
  simpl.
  assert (Hpi : page_items data_key response = Ret items)
    by (unfold page_items; now rewrite Hpage).
  assert (Hnext : has_next response = truthy token)
    by (unfold has_next; now rewrite Htoken).
  destruct (truthy token) eqn:Htruthy; simpl in Hrun.
  - destruct (Z.of_nat (length (acc ++ items)) >? limit) eqn:Hover.
    + apply ret_run in Hrun as ([= ->] & -> & ->).
      exists [], response, [], items. simpl. rewrite app_nil_r.
      split; [eapply serves_one; eauto |].
      split; [constructor |]. split; [exact Hpi |]. split; [reflexivity |].
      split; [constructor |]. split; [intros k Hk; simpl in Hk; lia |].
      split; [right; lia | lia].
    + apply IH in Hrun
        as (earlier & last & earlier_items & last_items & Hserves & Hall & Hlast
            & -> & Hnexts & Hwithin & Hstop & Hfuel).
      exists (response :: earlier), last, (items :: earlier_items), last_items.
      split; [simpl; eapply serves_next; eauto |].
      split; [now constructor |]. split; [exact Hlast |].
      split; [simpl; now rewrite <- !app_assoc |].
      split; [constructor; [now rewrite Hnext | exact Hnexts] |].
      split; [| split; [exact Hstop | simpl; lia]].
      intros k Hk. simpl in Hk. destruct k as [| k]; [lia |].
      simpl. destruct k as [| k].
      * rewrite take_0. simpl. rewrite app_nil_r. lia.
      * rewrite app_assoc. apply Hwithin. lia.
  - apply ret_run in Hrun as ([= ->] & -> & ->).
    exists [], response, [], items. simpl. rewrite app_nil_r.
    split; [eapply serves_one; eauto |].
    split; [constructor |]. split; [exact Hpi |]. split; [reflexivity |].
    split; [constructor |]. split; [intros k Hk; simpl in Hk; lia |].
    split; [left; exact Hnext | lia].
Qed.

Lemma serves_nonempty (func : gmap string Value -> M World Value) fuel kw
    (w : World) t w' :
  ~ serves func fuel kw w [] t w'.
Proof. inversion 1. Qed.

Lemma serves_one_inv (func : gmap string Value -> M World Value) fuel kw
    (w : World) last t w' :
  serves func fuel kw w [last] t w' ->
  exists kw',
    add_next_page_token kw = Ret kw'
    /\ func kw' fuel w = Some (t, w', Ret last).
Proof.
  inversion 1 as [? kw' ? ? ? ? Hkw Hfunc | ? ? ? ? ? ? ? ? ? ? ? ? ? Hmore]; subst.
  - now exists kw'.
  - now apply serves_nonempty in Hmore.
Qed.

Lemma serves_cons_inv (func : gmap string Value -> M World Value) fuel kw
    (w : World) response pages t w' :
  pages <> [] ->
  serves func fuel kw w (response :: pages) t w' ->
  exists kw' t1 w1 token t2,
    add_next_page_token kw = Ret kw'
    /\ func kw' fuel w = Some (t1, w1, Ret response)
    /\ dict_get response "nextPageToken" = Ret token
    /\ serves func fuel (<["pageToken" := token]> kw') w1 pages t2 w'
    /\ t = t1 ++ t2.
Proof.
  intros Hne.
  inversion 1 as [| ? kw' ? t1 w1 ? token ? t2 ? Hkw Hfunc Htoken Hmore]; subst;
    [contradiction |].
  now exists kw', t1, w1, token, t2.
Qed.

Lemma page_items_token data_key response items :
  page_items data_key response = Ret items ->
  exists page token,
    dict_get response data_key = Ret page /\ iterate page = Ret items
    /\ dict_get response "nextPageToken" = Ret token
    /\ has_next response = truthy token.
Proof.
  unfold page_items, has_next. destruct response; try discriminate. simpl.
  intros Hitems.
  exists (default VNone (d !! data_key)), (default VNone (d !! "nextPageToken")).
  auto.
Qed.

(** Conversely: pages served in sequence, each one but the last with a
    token and within the limit, make the loop return their concatenation
    when the fuel covers them. *)
Lemma paginated_loop_complete data_key (func : gmap string Value -> M World Value)
    limit fuel earlier :
  forall earlier_items n kw acc (w : World) t w' last last_items,
    serves func fuel kw w (earlier ++ [last]) t w' ->
    Forall2 (fun response items => page_items data_key response = Ret items)
      earlier earlier_items ->
    page_items data_key last = Ret last_items ->
    Forall (fun response => has_next response = true) earlier ->
    (forall k, (1 <= k <= length earlier)%nat ->
       Z.of_nat (length (acc ++ concat (take k earlier_items))) <= limit) ->
    (has_next last = false
     \/ limit < Z.of_nat (length (acc ++ concat earlier_items ++ last_items))) ->
    (length earlier < n)%nat ->
    paginated_loop data_key func limit kw acc n fuel w
    = Some (t, w', Ret (acc ++ concat earlier_items ++ last_items)).
Proof.
  induction earlier as [| response earlier IH];
    intros earlier_items n kw acc w t w' last last_items
      Hserves Hall Hlast Hnexts Hwithin Hstop Hfuel;
    (destruct n as [| n]; [simpl in Hfuel; lia |]).
  - apply Forall2_nil_inv_l in Hall as ->. simpl in *.
    apply page_items_token in Hlast as (page & token & Hpage & Hitems & Htoken & Hnext).
    apply serves_one_inv in Hserves as (kw' & Hkw & Hfunc).
    cbn [paginated_loop].
    rewrite Hkw, bind_lift_ret, (bind_ret_run _ _ _ _ _ _ _ Hfunc). cbv beta.
    rewrite Hpage, bind_lift_ret, Hitems, bind_lift_ret, Htoken, bind_lift_ret.
    rewrite Hnext in Hstop.
    destruct (truthy token); simpl.
    + destruct Hstop as [Hstop | Hstop]; [discriminate |].
      assert (Hover : (Z.of_nat (length (acc ++ last_items)) >? limit) = true) by lia.
      rewrite Hover. unfold ret. now rewrite app_nil_r.
    + unfold ret. now rewrite app_nil_r.
  - apply Forall2_cons_inv_l in Hall as (items & earlier_items' & Hitems & Hall & ->).
    apply Forall_cons in Hnexts as (Hnext & Hnexts).
    apply page_items_token in Hitems as (page & token & Hpage & Hiter & Htoken & Hnext').
    rewrite Hnext' in Hnext.
    simpl in Hserves.
    apply serves_cons_inv in Hserves
      as (kw' & t1 & w1 & token0 & t2 & Hkw & Hfunc & Htoken0 & Hmore & ->);
      [| now destruct earlier].
    rewrite Htoken in Htoken0. injection Htoken0 as <-.
    cbn [paginated_loop].
    rewrite Hkw, bind_lift_ret, (bind_ret_run _ _ _ _ _ _ _ Hfunc). cbv beta.
    rewrite Hpage, bind_lift_ret, Hiter, bind_lift_ret, Htoken, bind_lift_ret.
    rewrite Hnext. simpl in *.
    assert (Hover : (Z.of_nat (length (acc ++ items)) >? limit) = false).
    { specialize (Hwithin 1%nat). simpl in Hwithin. rewrite ?take_0 in Hwithin.
      simpl in Hwithin. rewrite ?app_nil_r in Hwithin. lia. }
    rewrite Hover.
    rewrite (IH earlier_items' n _ (acc ++ items) w1 t2 w' last last_items);
      auto; try lia.
    + do 3 f_equal. now rewrite <- !app_assoc.
    + intros k Hk. rewrite <- app_assoc. apply (Hwithin (S k)). lia.
    + destruct Hstop as [Hstop | Hstop]; [now left | right].
      now rewrite <- !app_assoc in *.
Qed.

(** C3: a function wrapped by [paginated] returns [results] exactly when
    the function serves successive pages, each asked for with the
    continuation token of the page before, such that: [results] is the
    in-order concatenation of their items; every page before the last
    carries a continuation token and leaves the accumulated count within
    the limit (the [limit] keyword, 250 when absent); and the last page
    either carries no token or brings the count over the limit, a token
    remaining or not.  So the result exceeds the limit by at most the size
    of the last page. *)
Theorem paginated_concatenates (data_key : string)
    (func : gmap string Value -> M World Value) (kw : gmap string Value)
    (fuel : nat) (w : World) t w' results :
  paginated data_key func kw fuel w = Some (t, w', Ret results)
  <-> exists limit earlier last earlier_items last_items,
      py_int (default (VInt 250) (kw !! "limit")) = Ret limit
      /\ (length earlier < fuel)%nat
      /\ serves func fuel (delete "limit" kw) w (earlier ++ [last]) t w'
      /\ Forall2 (fun response items => page_items data_key response = Ret items)
           earlier earlier_items
      /\ page_items data_key last = Ret last_items
      /\ results = concat earlier_items ++ last_items
      /\ Forall (fun response => has_next response = true) earlier
      /\ (forall k, (1 <= k <= length earlier)%nat ->
            Z.of_nat (length (concat (take k earlier_items))) <= limit)
      /\ (has_next last = false \/ limit < Z.of_nat (length results))
      /\ Z.of_nat (length results) <= Z.max 0 limit + Z.of_nat (length last_items).
Proof.
  unfold paginated. split.
  - intros Hrun.
    apply bind_run_ret in Hrun as (t0 & w0 & limit & t1 & Hlimit & Hrun & ->).
    apply lift_run_ret in Hlimit as (Hlimit & -> & ->).
    unfold with_fuel in Hrun.
    apply paginated_loop_run in Hrun
      as (earlier & last & earlier_items & last_items & Hserves & Hall & Hlast
          & -> & Hnexts & Hwithin & Hstop & Hfuel).
    exists limit, earlier, last, earlier_items, last_items.
    simpl in *. repeat split; auto.
    pose proof (Forall2_length _ _ _ Hall) as Hlen.
    rewrite length_app.
    destruct earlier as [| response earlier].
    + destruct earlier_items; [simpl; lia | discriminate].
    + specialize (Hwithin (length (response :: earlier))).
      rewrite Hlen, firstn_all in Hwithin. simpl in *. lia.
  - intros (limit & earlier & last & earlier_items & last_items & Hlimit & Hfuel
            & Hserves & Hall & Hlast & -> & Hnexts & Hwithin & Hstop & _).
    rewrite Hlimit, bind_lift_ret. unfold with_fuel.
    now apply (paginated_loop_complete data_key func limit fuel earlier
                 earlier_items fuel _ [] w t w' last last_items).
Qed.

End Pagination.

(** The spec's example: three pages of 100 items, a continuation token on
    the first two, and [limit=250]: three requests, the second and third
    with the token of the page before, and all 300 items. *)
Lemma paginated_concatenates_witness :
  let item := VDict {[ "id" := VStr "f" ]} in
  let page (token : gmap string Value) :=
    VDict (<["files" := VList (replicate 100 item)]> token) in
  let page1 := page {[ "nextPageToken" := VStr "t1" ]} in
  let page2 := page {[ "nextPageToken" := VStr "t2" ]} in
  let page3 := page ∅ in
  let w := [Ret page1; Ret page2; Ret page3] in
  let kw : gmap string Value := {[ "limit" := VInt 250 ]} in
  let request (token : gmap string Value) :=
    mkRequest files "list"
      ({[ "corpora" := VStr "drive";
          "driveId" := VStr "D";
          "supportsAllDrives" := VBool true;
          "includeItemsFromAllDrives" := VBool true;
          "q" := VNone ]} ∪ token) in
  let t := [ECall (request ∅) (Ret page1);
            ECall (request {[ "pageToken" := VStr "t1" ]}) (Ret page2);
            ECall (request {[ "pageToken" := VStr "t2" ]}) (Ret page3)] in
  let results := replicate 300 item in
  list_files (VStr "D") VNone kw 5%nat w = Some (t, [], Ret results)
  /\ exists limit earlier last earlier_items last_items,
      py_int (default (VInt 250) (kw !! "limit")) = Ret limit
      /\ (length earlier < 5)%nat
      /\ serves (list_files_page (VStr "D") VNone) 5%nat (delete "limit" kw) w
           (earlier ++ [last]) t []
      /\ Forall2 (fun response items => page_items "files" response = Ret items)
           earlier earlier_items
      /\ page_items "files" last = Ret last_items
      /\ results = concat earlier_items ++ last_items
      /\ Forall (fun response => has_next response = true) earlier
      /\ (forall k, (1 <= k <= length earlier)%nat ->
            Z.of_nat (length (concat (take k earlier_items))) <= limit)
      /\ (has_next last = false \/ limit < Z.of_nat (length results))
      /\ Z.of_nat (length results) <= Z.max 0 limit + Z.of_nat (length last_items).
Proof.
  intros item page page1 page2 page3 w kw request t results.
  assert (Hrun : list_files (VStr "D") VNone kw 5%nat w = Some (t, [], Ret results))
    by (vm_cast_no_check (@eq_refl _ (Some (t, ([] : list (Res Value)), Ret results)))).
  split; [exact Hrun |].
  exact (proj1 (paginated_concatenates "files" (list_files_page (VStr "D") VNone) kw
                  5%nat w t [] results) Hrun).
Defined.

(** ** Archiving a drive *)

Section Archive.

Context {World : Type} `{Env : Environment World}.



(** A call of the executor, read as steps: it asks for one step only,
    which is carried out exactly when the call returns. *)
Lemma make_call_steps client func propagate_errors kw fuel (w : World) t w1 r :
  make_call client func propagate_errors kw fuel w = Some (t, w1, r) ->
  Forall (fun s => s = step_of (mkRequest client func kw)) (attempted t)
  /\ steps t = match r with
               | Ret _ => [step_of (mkRequest client func kw)]
               | Raise _ => []
               end.
Proof.
  intros Hrun. apply make_call_run in Hrun as (Hs & Ha & _).
  split.
  - unfold attempted. apply Forall_fmap. unfold sends_only in Hs.
    eapply Forall_impl; [exact Hs |]. now intros q ->.
  - unfold steps. rewrite answered_answers, Ha. now destruct r.
Qed.












End Archive.


(** ** Handlers that never run *)

Section Handlers.

Context {World : Type} `{Env : Environment World}.

(** A retried function never ends with [TryAgain]: the controller either
    attempts again or raises [RetryError]. *)
Lemma retry_loop_never_TryAgain {A} (p : Retrying) (fn : M World A) n k fuel w
    t w1 e :
  retry_loop p fn k n fuel w = Some (t, w1, Raise e) -> e <> TryAgain.
Proof.
  revert k w t. induction n as [| n IH]; intros k w t Hrun; [discriminate |].
  apply retry_loop_run in Hrun as (t0 & w0 & [a | e0] & _ & Hrest).
  - now destruct Hrest as (_ & _ & ?).
  - destruct (is_TryAgain e0 || retry_on p e0) eqn:Hretry.
    + destruct (stop p k).
      * destruct Hrest as (_ & _ & [= ->]). discriminate.
      * destruct Hrest as (t2 & Hrec & _). now apply IH in Hrec.
    + destruct Hrest as (_ & _ & [= ->]). intros ->. discriminate.
Qed.

Lemma make_call_never_TryAgain client func propagate_errors kw fuel (w : World)
    t w1 e :
  make_call client func propagate_errors kw fuel w = Some (t, w1, Raise e) ->
  e <> TryAgain /\ forall status content, e <> HttpError status content.
Proof.
  intros Hrun. split.
  - now apply retry_loop_never_TryAgain in Hrun.
  - apply make_call_run in Hrun as (_ & _ & Hne & _).
    intros status content ->. now apply (Hne status content).
Qed.

(** The exceptions of a loop are those of its body. *)
Lemma for_each_raises (P : Exn -> Prop) (l : list Value)
    (body : Value -> M World unit) fuel (w : World) t w1 e :
  (forall x w0 t0 w2 e0, body x fuel w0 = Some (t0, w2, Raise e0) -> P e0) ->
  for_each l body fuel w = Some (t, w1, Raise e) ->
  P e.
Proof.
  intros Hbody. revert w t. induction l as [| x l IH]; intros w t Hrun;
    [discriminate |].
  simpl in Hrun.
  apply bind_run in Hrun
    as [(t1 & w2 & [] & t2 & Hx & Hrun & ->) | (e' & Hx & [= <-])]; eauto.
Qed.

(** One attempt of [create_team_drive] never asks for another one: whatever
    the service answers, the body does not end with [TryAgain]. *)
Lemma create_team_drive_body_never_TryAgain (name : Value) (members : list Value)
    (role : Roles) fuel (w : World) t w1 e :
  create_team_drive_body name members role fuel w = Some (t, w1, Raise e) ->
  e <> TryAgain.
Proof.
  unfold create_team_drive_body, new_uuid. intros Hrun.
  apply bind_run in Hrun
    as [(t0 & w0 & request_id & t2 & _ & Hrun & ->) | (e' & Hid & _)];
    [| destruct (uuid4 w); discriminate].
  apply bind_run in Hrun
    as [(t3 & w3 & r & t4 & Hcreate & Hrun & ->) | (e' & Hcreate & _)].
  2: { unfold attempt in Hcreate. destruct (make_call _ _ _ _ _ _) as [[[? ?] ?] |];
       discriminate. }
  unfold attempt in Hcreate.
  destruct (make_call drives "create" false _ fuel w0)
    as [[[t5 w5] r5] |] eqn:Hcall; [| discriminate].
  injection Hcreate as <- <- <-.
  apply bind_run in Hrun
    as [(t6 & w6 & drive_data & t7 & _ & Hrun & ->) | (e' & Hdata & [= <-])].
  - apply bind_run in Hrun
      as [(t8 & w8 & [] & t9 & _ & Hrun & ->) | (e' & Hloop & [= <-])].
    + destruct drive_data; [discriminate |].
      injection Hrun as _ _ <-. discriminate.
    + eapply (for_each_raises (fun e => e <> TryAgain)); [| exact Hloop].
      clear. intros member w0 t0 w2 e0 Hrun.
      apply bind_run in Hrun
        as [(t1 & w1 & d & t2 & _ & Hrun & _) | (e' & Hread & [= <-])].
      * apply bind_run in Hrun
          as [(t3 & w3 & id & t4 & _ & Hrun & _) | (e' & Hid & [= <-])].
        -- apply bind_run in Hrun
             as [(t5 & w5 & v & t6 & _ & Hrun & _) | (e' & Hgrant & [= <-])];
             [discriminate |].
           now apply make_call_never_TryAgain in Hgrant as [? _].
        -- unfold lift in Hid. injection Hid as _ _ Hid.
           destruct d; try (injection Hid as <-; discriminate).
           simpl in Hid. destruct (d !! "id"); [discriminate |].
           injection Hid as <-. discriminate.
      * destruct drive_data; [discriminate |].
        injection Hread as _ _ <-. discriminate.
  - destruct r5 as [v | e5]; [discriminate |].
    apply make_call_never_TryAgain in Hcall as [Hno Hne].
    destruct e5; try (injection Hdata as _ _ <-; discriminate).
    + now contradiction (Hne status content).
    + now contradiction Hno.
Qed.

(** So the retry of [create_team_drive] never fires: the decorated function
    is its body, run once. *)
Lemma create_team_drive_single_attempt (name : Value) (members : list Value)
    (role : Roles) fuel (w : World) :
  (1 <= fuel)%nat ->
  create_team_drive name members role fuel w
  = create_team_drive_body name members role fuel w.
Proof.
  intros Hfuel. destruct fuel as [| n]; [lia |].
  unfold create_team_drive, retry, with_fuel.
  destruct (create_team_drive_body name members role (S n) w)
    as [[[t w1] [v | e]] |] eqn:Hbody.
  - now apply retry_loop_returns.
  - apply retry_loop_raises; [exact Hbody |].
    apply create_team_drive_body_never_TryAgain in Hbody.
    simpl. unfold retry_if_TryAgain. now destruct e.
  - simpl. unfold bind, attempt. now rewrite Hbody.
Qed.

(** [upload_chunk] never raises: every exception of a chunk is either
    retried (500, 502, 503, 504 and anything that is not an [HttpError]) or
    dropped. *)
Lemma upload_chunk_never_raises (request : UploadRequest) fuel (w : World) t w1 r :
  upload_chunk request fuel w = Some (t, w1, r) -> exists v, r = Ret v.
Proof.
  unfold upload_chunk, retry, with_fuel. generalize 1%nat at 1.
  generalize fuel at 1. intros n. revert w t.
  induction n as [| n IH]; intros w t k Hrun; [discriminate |].
  apply retry_loop_run in Hrun as (t0 & w0 & [v | e0] & _ & Hrest).
  - destruct Hrest as (_ & _ & ->). now exists v.
  - simpl in Hrest. rewrite orb_true_r in Hrest.
    destruct Hrest as (t2 & Hrec & _). now apply IH in Hrec.
Qed.

(** A chunk failure outside 500, 502, 503, 504 is dropped: [None] comes
    back as the result of the chunk. *)
Lemma upload_chunk_drops (request : UploadRequest) fuel (w : World)
    status content w1 :
  (1 <= fuel)%nat ->
  next_chunk request w = (Raise (HttpError status content), w1) ->
  status_in status [500; 502; 503; 504] = false ->
  upload_chunk request fuel w
  = Some ([EChunk request (Raise (HttpError status content))], w1, Ret VNone).
Proof.
  intros Hfuel Hchunk Hin. destruct fuel as [| n]; [lia |].
  unfold upload_chunk, retry, with_fuel. apply retry_loop_returns.
  unfold upload_chunk_body, bind, attempt, send_chunk.
  now rewrite Hchunk, Hin.
Qed.

(** So the handler of [upload_file] for [HttpError] never runs for a chunk.
    Either the file cannot be opened, and what the constructor of the media
    raises reaches the caller before anything is sent; or the client
    library refuses to build the request, and the handler sees what it
    raises; or, once chunks are sent, the only exceptions [upload_file]
    raises come from unpacking what [upload_chunk] returned. *)
Lemma upload_file_raises (path name mimetype : Value) fuel (w : World) t w1 e :
  upload_file path name mimetype fuel w = Some (t, w1, Raise e) ->
  (t = [] /\ media_file_upload path mimetype w = (Raise e, w1))
  \/ (exists w0,
        media_file_upload path mimetype w = (Ret tt, w0)
        /\ ((t = []
             /\ exists e0,
                 create_upload (mkUpload path mimetype name) w0 = (Raise e0, w1)
                 /\ e = upload_handler path name mimetype e0)
            \/ ((exists w2,
                    create_upload (mkUpload path mimetype name) w0 = (Ret tt, w2))
                /\ (e = TypeError \/ e = ValueError)))).
Proof.
  unfold upload_file. intros Hrun.
  assert (Hloop : forall n w0 t0 w2 e0,
             upload_loop (mkUpload path mimetype name) n fuel w0
             = Some (t0, w2, Raise e0) ->
             e0 = TypeError \/ e0 = ValueError).
  { clear. induction n as [| n IH]; intros w0 t0 w2 e0 Hrun; [discriminate |].
    simpl in Hrun.
    apply bind_run in Hrun
      as [(t1 & w1 & v & t2 & _ & Hrun & _) | (e' & Hchunk & _)].
    - apply bind_run in Hrun
        as [(t3 & w3 & p & t4 & _ & Hrun & _) | (e' & Hpair & [= <-])].
      + destruct (negb (truthy (snd p))); [now apply IH in Hrun | discriminate].
      + unfold lift in Hpair. injection Hpair as _ _ Hpair.
        unfold unpack_pair in Hpair.
        destruct (iterate v) as [[| a [| b [| c l]]] | e1] eqn:Hiter;
          try (injection Hpair as <-; now right); try discriminate.
        injection Hpair as <-. left.
        destruct v; simpl in Hiter; congruence.
    - apply upload_chunk_never_raises in Hchunk as (v & Hv). discriminate. }
  unfold bind at 1, open_media at 1 in Hrun.
  destruct (media_file_upload path mimetype w) as [[[] | e0] w0] eqn:Hopen.
  2: { injection Hrun as <- <- <-. now left. }
  right. exists w0. split; [reflexivity |].
  destruct (bind _ _ fuel w0) as [[[t' w'] r'] |] eqn:Hrest; [| discriminate].
  injection Hrun as <- <- ->.
  unfold bind at 1, attempt at 1, bind at 1, build_upload at 1 in Hrest.
  destruct (create_upload (mkUpload path mimetype name) w0)
    as [[[] | e0] w2] eqn:Hbuild.
  - right. split; [now exists w2 |].
    unfold with_fuel in Hrest.
    destruct (upload_loop _ fuel fuel w2) as [[[t3 w3] r3] |] eqn:Hup;
      [| discriminate].
    destruct r3 as [v | e3]; [discriminate |].
    apply Hloop in Hup as [-> | ->]; injection Hrest as _ _ <-; auto.
  - left.
    destruct e0; try (injection Hrest as <- <- <-; split; [reflexivity |];
                      eexists; split; reflexivity).
    destruct (status_in status [404]) eqn:Hstatus;
      injection Hrest as <- <- <-; (split; [reflexivity |]);
      exists (HttpError status content); (split; [reflexivity |]);
      cbn [upload_handler]; now rewrite Hstatus.
Qed.

End Handlers.

(** ** Where the code departs from its description *)

(** C2: on a non-retryable status the executor does not retry and fails on
    the first attempt, but with [propagate_errors] the failure it raises is
    not the original one.  Here the service answers 403: [make_call] sends
    the request once (the next answer of the script stays unused) and
    raises what [raise HttpError] raises, the class without the response
    and body of the error it caught ([make_call_permanent] is the general
    statement). *)
Example make_call_propagate_drops_error :
  let kw : gmap string Value := {[ "fileId" := VStr "f1" ]} in
  make_call files "get" true kw 5%nat [failure 403; Ret VNone]
  = Some ([ECall (mkRequest files "get" kw) (failure 403)], [Ret VNone],
          Raise HttpErrorClass)
  /\ Raise HttpErrorClass <> failure 403.
Proof. split; [vm_compute; reflexivity | discriminate]. Qed.

(** C4: a name collision (status 409) on the creation of the drive is not
    retried.  [make_call] turns the 409 into the generic failure before
    [create_team_drive] sees it, so its own handler for 409 never runs: the
    creation is sent once, the answers a second attempt would get stay
    unused, no member is granted, and the generic failure reaches the
    caller.  In general the retry of [create_team_drive] never fires
    ([create_team_drive_single_attempt]). *)
Example create_team_drive_conflict_not_retried :
  let request :=
    mkRequest drives "create"
      {[ "body" := VDict {[ "name" := VStr "incident-1" ]};
         "requestId" := VStr "c1f0e3a2-5b7d-4c1e-9a54-0d2f6b8e7a11" ]} in
  let later := [Ret (VDict {[ "id" := VStr "D" ]}); Ret (VDict ∅)] in
  create_team_drive (VStr "incident-1") [VStr "ann@example.com"] owner 5%nat
    (failure 409 :: later)
  = Some ([ECall request (failure 409)], later,
          Raise (Exception [Lit "Request failed. Errors: "; Fmt (VStr "{}")])).
Proof. vm_compute. reflexivity. Qed.

(** C5: a chunk that fails with status 404 does not restart the upload.
    [upload_chunk] drops the error and returns [None]; unpacking it in
    [upload_file] raises a [TypeError], which the handler for [HttpError]
    does not catch.  One chunk is sent, the answers a restarted upload would
    get stay unused, and neither [TryAgain] nor the failure naming the file
    is raised.  In general [upload_file], once chunks are sent, raises
    nothing but the errors of that unpacking ([upload_file_raises]). *)
Example upload_file_not_found_not_restarted :
  let request := mkUpload (VStr "/tmp/report.pdf") (VStr "application/pdf") (VStr "report") in
  let later := [Ret (VTuple [VNone; VDict {[ "id" := VStr "F" ]}])] in
  upload_file (VStr "/tmp/report.pdf") (VStr "report") (VStr "application/pdf") 5%nat
    (failure 404 :: later)
  = Some ([EChunk request (failure 404)], later, Raise TypeError).
Proof. vm_compute. reflexivity. Qed.

(** C6: a chunk that fails with a status outside 500, 502, 503, 504 is
    discarded by [upload_chunk]: here the service answers 403, and
    [upload_chunk] returns [None] as a normal result, with no retry and no
    exception ([upload_chunk_drops] is the general statement). *)
Example upload_chunk_discards_failure :
  let request := mkUpload (VStr "/tmp/report.pdf") (VStr "application/pdf") (VStr "report") in
  upload_chunk request 5%nat [failure 403]
  = Some ([EChunk request (failure 403)], [], Ret VNone).
Proof. vm_compute. reflexivity. Qed.

(** C9: the scan of [remove_permission] reads [p["emailAddress"]] of every
    entry.  An entry without an address (a domain permission, such as those
    [add_domain_permission] creates) listed before the match raises a
    [KeyError]: the scan stops there and the matching permission is never
    deleted.  Here the listing holds such an entry, then the one entry
    that carries the address: the listing is all that is sent, the answer a
    delete would get stays unused, and the [KeyError] reaches the caller
    ([scan_stops_without_address] is the general statement;
    [remove_permission_scan] is what holds when the entries carry an
    address). *)
Example remove_permission_stops_before_match :
  let shared := VDict {[ "id" := VStr "p1" ]} in
  let target :=
    VDict {[ "id" := VStr "p2"; "emailAddress" := VStr "bob@example.com" ]} in
  let listed := VDict {[ "permissions" := VList [shared; target] ]} in
  remove_permission "bob@example.com" (VStr "D") 5%nat [Ret listed; Ret VNone]
  = Some ([ECall (list_permissions_request (VStr "D")) (Ret listed)],
          [Ret VNone], Raise (KeyError "emailAddress"))
  /\ has_address "bob@example.com" target = Some true.
Proof. split; vm_compute; reflexivity. Qed.

(** ** More on the call executor *)

Section ExecutorMore.

Context {World : Type} `{Env : Environment World}.

(** X1: A status that is not transient ends [make_call] on the first attempt
    when the caller did not ask for the raw error: the request is sent once,
    nothing is slept, and the failure raised is the generic one that carries
    the decoded body of the response; a body that does not decode surfaces
    as the [ValueError] of the decoding instead. *)
Theorem make_call_generic_failure (client : Resource) (func : string)
    (kw : gmap string Value) (fuel : nat) (w : World) status content w1 :
  (1 <= fuel)%nat ->
  execute (mkRequest client func kw) w = (Raise (HttpError status content), w1) ->
  status_in status [300; 429; 500; 502; 503; 504] = false ->
  exists t,
    make_call client func false kw fuel w
    = Some (t, w1,
            Raise match json_loads content with
                  | Some errors =>
                      Exception [Lit "Request failed. Errors: "; Fmt errors]
                  | None => ValueError
                  end)
    /\ calls t = [mkRequest client func kw]
    /\ sleeps t = []
    /\ answered t = [].
Proof.
  intros Hfuel Hex Hin.
  exists [ECall (mkRequest client func kw) (Raise (HttpError status content))].
  split; [| repeat split].
  exact (make_call_permanent client func false kw fuel w status content w1
           Hfuel Hex Hin).
Qed.

(** X2: [make_call] always ends (five rounds of fuel are enough), whatever the
    service answers.  It sends its one request at least once and at most
    five times, sleeps between consecutive sends only, each time within
    [2,5]; the request is answered exactly when the call returns; and the
    exception raised is never [TryAgain] nor an [HttpError] instance. *)
Theorem make_call_bounded (client : Resource) (func : string)
    (propagate_errors : bool) (kw : gmap string Value) (fuel : nat) (w : World) :
  (5 <= fuel)%nat ->
  exists t w1 r,
    make_call client func propagate_errors kw fuel w = Some (t, w1, r)
    /\ sends_only (mkRequest client func kw) t
    /\ (1 <= length (calls t) <= 5)%nat
    /\ S (length (sleeps t)) = length (calls t)
    /\ Forall (fun d => 2 <= d <= 5) (sleeps t)
    /\ answers t = match r with
                   | Ret v => [(mkRequest client func kw, v)]
                   | Raise _ => []
                   end
    /\ r <> Raise TryAgain
    /\ (forall status content, r <> Raise (HttpError status content)).
Proof.
  intros Hfuel.
  destruct (make_call_total client func propagate_errors kw fuel w Hfuel)
    as (t & w1 & r & Hrun).
  exists t, w1, r. split; [exact Hrun |].
  pose proof (make_call_run _ _ _ _ _ _ _ _ _ Hrun) as (Hs & Ha & Hne & Hd).
  pose proof (make_call_loop_count _ _ _ _ _ _ _ _ _ _ _
                (conj (le_n 1) (le_S _ _ (le_S _ _ (le_S _ _ (le_S _ _ (le_n 1))))))
                Hrun) as (H1 & H2 & H3).
  repeat split; auto; try lia.
  intros ->. now apply make_call_never_TryAgain in Hrun as [Hno _].
Qed.

Lemma make_call_loop_recovers client func propagate_errors kw k :
  forall a n fuel (w : World) v w',
    (1 <= a)%nat -> (a + k <= 5)%nat -> (k < n)%nat ->
    answers_after (mkRequest client func kw) k w v w' ->
    exists t,
      retry_loop
        {| stop := stop_after_attempt 5; retry_on := retry_if_TryAgain;
           wait := wait_exponential 1 2 5 |}
        (make_call_body client func propagate_errors kw) a n fuel w
      = Some (t, w', Ret v)
      /\ calls t = replicate (S k) (mkRequest client func kw)
      /\ answers t = [(mkRequest client func kw, v)]
      /\ length (sleeps t) = k
      /\ Forall (fun d => 2 <= d <= 5) (sleeps t).
Proof.
  induction k as [| k IH]; intros a n fuel w v w' Ha Hak Hn Hanswers;
    (destruct n as [| n]; [lia |]).
  - simpl in Hanswers.
    exists [ECall (mkRequest client func kw) (Ret v)]. split; [| repeat split].
    + apply retry_loop_returns. now apply make_call_body_returns.
    + constructor.
  - simpl in Hanswers.
    destruct (execute (mkRequest client func kw) w) as [[v0 | e] w0] eqn:Hex;
      [contradiction |].
    destruct e; try contradiction. destruct Hanswers as (Hin & Hanswers).
    destruct (IH (S a) n fuel w0 v w') as (t2 & Hrec & Hcalls & Hans & Hlen & Hd);
      auto; try lia.
    exists ([ECall (mkRequest client func kw) (Raise (HttpError status content))]
            ++ ESleep (wait_exponential 1 2 5 a) :: t2).
    split.
    + erewrite retry_loop_again.
      * now rewrite Hrec.
      * now apply make_call_body_transient.
      * reflexivity.
      * change (stop_after_attempt 5 a = false).
        unfold stop_after_attempt. apply Nat.leb_gt. lia.
    + change (ESleep (wait_exponential 1 2 5 a) :: t2)
        with ([ESleep (wait_exponential 1 2 5 a)] ++ t2).
      rewrite !calls_app, !answers_app, !sleeps_app, Hcalls, Hans.
      repeat split.
      * simpl. now rewrite Hlen.
      * simpl. constructor; [| exact Hd].
        apply (wait_exponential_bounds 1 2 5); lia.
Qed.

(** X3: [make_call] rides out transient answers: when the service answers the
    first [k] sends (at most four) with a transient status and the next one
    with [v], the call returns [v] after [k + 1] sends of the same request
    and [k] sleeps, each within [2,5]. *)
Theorem make_call_recovers (client : Resource) (func : string)
    (propagate_errors : bool) (kw : gmap string Value) (k fuel : nat)
    (w : World) v w' :
  (k <= 4)%nat -> (k < fuel)%nat ->
  answers_after (mkRequest client func kw) k w v w' ->
  exists t,
    make_call client func propagate_errors kw fuel w = Some (t, w', Ret v)
    /\ calls t = replicate (S k) (mkRequest client func kw)
    /\ answers t = [(mkRequest client func kw, v)]
    /\ length (sleeps t) = k
    /\ Forall (fun d => 2 <= d <= 5) (sleeps t).
Proof.
  intros Hk Hfuel Hanswers. unfold make_call, retry, with_fuel.
  apply make_call_loop_recovers; auto; lia.
Qed.

End ExecutorMore.

Lemma make_call_generic_failure_witness :
  let kw : gmap string Value := {[ "fileId" := VStr "f1" ]} in
  exists t,
    make_call files "get" false kw 1%nat [failure 403; Ret VNone]
    = Some (t, [Ret VNone],
            Raise (Exception [Lit "Request failed. Errors: "; Fmt (VStr "{}")]))
    /\ calls t = [mkRequest files "get" kw]
    /\ sleeps t = []
    /\ answered t = [].
Proof.
  intros kw.
  exact (make_call_generic_failure files "get" kw 1%nat [failure 403; Ret VNone]
           403 "{}" [Ret VNone] (le_n 1) eq_refl eq_refl).
Defined.

Lemma make_call_bounded_witness :
  let kw : gmap string Value := {[ "fileId" := VStr "f1" ]} in
  exists t w1 r,
    make_call files "get" true kw 5%nat [failure 503; failure 403] = Some (t, w1, r)
    /\ sends_only (mkRequest files "get" kw) t
    /\ (1 <= length (calls t) <= 5)%nat
    /\ S (length (sleeps t)) = length (calls t)
    /\ Forall (fun d => 2 <= d <= 5) (sleeps t)
    /\ answers t = match r with
                   | Ret v => [(mkRequest files "get" kw, v)]
                   | Raise _ => []
                   end
    /\ r <> Raise TryAgain
    /\ (forall status content, r <> Raise (HttpError status content)).
Proof.
  intros kw.
  exact (make_call_bounded files "get" true kw 5%nat [failure 503; failure 403]
           (le_n 5)).
Defined.

Lemma make_call_recovers_witness :
  let kw : gmap string Value := {[ "fileId" := VStr "f1" ]} in
  let v := VDict {[ "id" := VStr "f1" ]} in
  exists t,
    make_call files "get" false kw 3%nat [failure 503; failure 429; Ret v]
    = Some (t, [], Ret v)
    /\ calls t = replicate 3 (mkRequest files "get" kw)
    /\ answers t = [(mkRequest files "get" kw, v)]
    /\ length (sleeps t) = 2%nat
    /\ Forall (fun d => 2 <= d <= 5) (sleeps t).
Proof.
  intros kw v.
  apply (make_call_recovers files "get" false kw 2 3 [failure 503; failure 429; Ret v]
           v []).
  - lia.
  - lia.
  - simpl. repeat split.
Defined.

(** ** Raw-error propagation *)

Section Propagation.

Context {World : Type} `{Env : Environment World}.

(** X4: With [propagate_errors], a response whose status is not transient ends
    [make_call] after one send and no sleep, with what [raise HttpError]
    raises: the class itself.  It carries neither the status nor the body of
    the response caught, so two different rejections surface as the same
    exception. *)
Theorem make_call_propagate_errors (client : Resource) (func : string)
    (kw : gmap string Value) (fuel : nat) (w : World) status content w1 :
  (1 <= fuel)%nat ->
  execute (mkRequest client func kw) w = (Raise (HttpError status content), w1) ->
  status_in status [300; 429; 500; 502; 503; 504] = false ->
  make_call client func true kw fuel w
  = Some ([ECall (mkRequest client func kw) (Raise (HttpError status content))],
          w1, Raise HttpErrorClass)
  /\ forall status' content',
      Raise (A := Value) HttpErrorClass <> Raise (HttpError status' content').
Proof.
  intros Hfuel Hex Hin. split; [| discriminate].
  exact (make_call_permanent client func true kw fuel w status content w1
           Hfuel Hex Hin).
Qed.

End Propagation.

Lemma make_call_propagate_errors_witness :
  let kw : gmap string Value := {[ "fileId" := VStr "f1" ]} in
  make_call files "get" true kw 1%nat [failure 404; Ret VNone]
  = Some ([ECall (mkRequest files "get" kw) (Raise (HttpError 404 "{}"))],
          [Ret VNone], Raise HttpErrorClass)
  /\ forall status' content',
      Raise (A := Value) HttpErrorClass <> Raise (HttpError status' content').
Proof.
  intros kw.
  exact (make_call_propagate_errors files "get" kw 1%nat [failure 404; Ret VNone]
           404 "{}" [Ret VNone] (le_n 1) eq_refl eq_refl).
Defined.

(** ** More on pagination *)

Lemma append_assoc (a b c : string) : (a +:+ b) +:+ c = a +:+ b +:+ c.
Proof.
  induction a as [| x a IH]; [reflexivity | exact (f_equal (String x) IH)].
Qed.

Lemma append_nil_r (a : string) : a +:+ "" = a.
Proof.
  induction a as [| x a IH]; [reflexivity | exact (f_equal (String x) IH)].
Qed.

Lemma split_comma_aux_nonempty s cur : split_comma_aux s cur <> [].
Proof.
  revert cur. induction s as [| c s IH]; intros cur; cbn [split_comma_aux];
    [discriminate |].
  destruct (String.eqb _ _); [discriminate | apply IH].
Qed.

Lemma concat_cons sep x (l : list string) :
  l <> [] -> String.concat sep (x :: l) = x +:+ sep +:+ String.concat sep l.
Proof. now destruct l. Qed.

Lemma concat_snoc sep (l : list string) x :
  l <> [] -> String.concat sep (l ++ [x]) = String.concat sep l +:+ sep +:+ x.
Proof.
  induction l as [| y l IH]; [contradiction |]. intros _.
  destruct l as [| z l]; [reflexivity |].
  change ((y :: z :: l) ++ [x]) with (y :: (z :: l) ++ [x]).
  rewrite (concat_cons sep y ((z :: l) ++ [x])) by (simpl; discriminate).
  rewrite IH by discriminate.
  rewrite (concat_cons sep y (z :: l)) by discriminate.
  now rewrite !append_assoc.
Qed.

(** Joining what was split gives the string back. *)
Lemma join_split_aux s cur :
  String.concat "," (split_comma_aux s cur) = cur +:+ s.
Proof.
  revert cur. induction s as [| c s IH]; intros cur; cbn [split_comma_aux].
  - now rewrite append_nil_r.
  - destruct (String.eqb (String c "") ",") eqn:Hc.
    + apply String.eqb_eq in Hc. injection Hc as ->.
      rewrite concat_cons by apply split_comma_aux_nonempty.
      now rewrite IH.
    + rewrite IH, append_assoc. reflexivity.
Qed.

Lemma join_split s : String.concat "," (split_comma s) = s.
Proof. apply join_split_aux. Qed.

(** Splitting after a comma splits both sides. *)
Lemma split_comma_aux_app a b cur :
  split_comma_aux (a +:+ "," +:+ b) cur
  = split_comma_aux a cur ++ split_comma_aux b "".
Proof.
  revert cur. induction a as [| c a IH]; intros cur; [reflexivity |].
  change (String c a +:+ "," +:+ b) with (String c (a +:+ "," +:+ b)).
  cbn [split_comma_aux].
  destruct (String.eqb (String c "") ","); [now rewrite IH | apply IH].
Qed.

Lemma listed_spec (x : string) (l : list string) :
  existsb (String.eqb x) l = true <-> x ∈ l.
Proof.
  rewrite existsb_exists. split.
  - intros (y & Hy & Heq). apply String.eqb_eq in Heq. subst y.
    now apply list_elem_of_In.
  - intros Hx. exists x. split; [now apply list_elem_of_In | apply String.eqb_refl].
Qed.

(** What the wrapper does to a non-empty fields mask. *)
Lemma add_next_page_token_spec (kw : gmap string Value) (s : string) :
  kw !! "fields" = Some (VStr s) -> s <> "" ->
  exists s',
    add_next_page_token kw = Ret (<["fields" := VStr s']> kw)
    /\ ("nextPageToken" ∈ split_comma s -> s' = s)
    /\ (("nextPageToken" ∉ split_comma s) -> s' = s +:+ ",nextPageToken")
    /\ "nextPageToken" ∈ split_comma s'
    /\ add_next_page_token (<["fields" := VStr s']> kw)
       = Ret (<["fields" := VStr s']> kw).
Proof.
  intros Hfields Hs.
  assert (Htruthy : forall x, x <> "" -> negb (String.eqb x "") = true).
  { intros x Hx. apply negb_true_iff. now apply String.eqb_neq. }
  assert (Hfix : forall x, x <> "" -> "nextPageToken" ∈ split_comma x ->
            add_next_page_token (<["fields" := VStr x]> kw)
            = Ret (<["fields" := VStr x]> kw)).
  { intros x Hx Hin. unfold add_next_page_token.
    rewrite lookup_insert_eq. cbn [truthy]. rewrite (Htruthy x Hx). cbv zeta.
    apply listed_spec in Hin. rewrite Hin, join_split.
    now rewrite insert_insert_eq. }
  unfold add_next_page_token. rewrite Hfields. cbn [truthy].
  rewrite (Htruthy s Hs). cbv zeta.
  destruct (existsb (String.eqb "nextPageToken") (split_comma s)) eqn:Hlisted.
  - apply listed_spec in Hlisted. exists s. rewrite join_split.
    split; [reflexivity |]. split; [reflexivity |].
    split; [intros Hnot; contradiction |]. split; [exact Hlisted |].
    now apply Hfix.
  - assert (Hnot : "nextPageToken" ∉ split_comma s).
    { intros Hin. apply listed_spec in Hin. congruence. }
    exists (s +:+ ",nextPageToken").
    rewrite concat_snoc by apply split_comma_aux_nonempty. rewrite join_split.
    assert (Hin : "nextPageToken" ∈ split_comma (s +:+ ",nextPageToken")).
    { unfold split_comma.
      change (s +:+ ",nextPageToken") with (s +:+ "," +:+ "nextPageToken").
      rewrite split_comma_aux_app.
      apply elem_of_app. right. apply list_elem_of_here. }
    split; [reflexivity |]. split; [intros Hyes; contradiction |].
    split; [reflexivity |]. split; [exact Hin |].
    apply Hfix; [| exact Hin]. now destruct s.
Qed.

(** X5: Given a non-empty fields mask, the wrapper leaves it as it is when
    it lists [nextPageToken] and appends [,nextPageToken] to it otherwise;
    no other keyword changes, the new mask lists the token, and doing it
    again (as every later page does) changes nothing. *)
Theorem add_next_page_token_mask (kw : gmap string Value) (s : string) :
  kw !! "fields" = Some (VStr s) -> s <> "" ->
  exists s',
    add_next_page_token kw = Ret (<["fields" := VStr s']> kw)
    /\ ("nextPageToken" ∈ split_comma s -> s' = s)
    /\ (("nextPageToken" ∉ split_comma s) -> s' = s +:+ ",nextPageToken")
    /\ "nextPageToken" ∈ split_comma s'
    /\ add_next_page_token (<["fields" := VStr s']> kw)
       = Ret (<["fields" := VStr s']> kw).
Proof. apply add_next_page_token_spec. Qed.

Lemma add_next_page_token_mask_witness :
  let kw : gmap string Value := {[ "fields" := VStr "files(id),kind"; "q" := VNone ]} in
  exists s',
    add_next_page_token kw = Ret (<["fields" := VStr s']> kw)
    /\ ("nextPageToken" ∈ split_comma "files(id),kind" -> s' = "files(id),kind")
    /\ (("nextPageToken" ∉ split_comma "files(id),kind")
        -> s' = "files(id),kind" +:+ ",nextPageToken")
    /\ "nextPageToken" ∈ split_comma s'
    /\ add_next_page_token (<["fields" := VStr s']> kw)
       = Ret (<["fields" := VStr s']> kw).
Proof.
  intros kw.
  apply (add_next_page_token_mask kw "files(id),kind").
  - reflexivity.
  - discriminate.
Defined.

Section PaginationMore.

Context {World : Type} `{Env : Environment World}.

(** What a call with unpacked keywords sends: the named keywords with the
    unpacked ones, [propagate_errors] apart. *)
Lemma make_call_with_calls client func named extra fuel (w : World) t w1 r :
  make_call_with client func named extra fuel w = Some (t, w1, r) ->
  sends_only (mkRequest client func (named ∪ delete "propagate_errors" extra)) t.
Proof.
  unfold make_call_with. destruct (existsb _ _).
  - intros [= <- <- <-]. constructor.
  - intros Hrun. now apply make_call_run in Hrun as (Hs & _).
Qed.

(** The requests of a paginated function are those of its pages: [I] holds
    of the keywords at the start of every round and [J] of those handed to
    the wrapped function. *)
Lemma paginated_loop_calls (I J : gmap string Value -> Prop) (P : Request -> Prop)
    data_key (func : gmap string Value -> M World Value) limit n kw acc fuel
    (w : World) t w1 r :
  (forall kw0 kw', I kw0 -> add_next_page_token kw0 = Ret kw' -> J kw') ->
  (forall kw0 token, J kw0 -> I (<["pageToken" := token]> kw0)) ->
  (forall kw0 w0 t0 w2 r0,
      J kw0 -> func kw0 fuel w0 = Some (t0, w2, r0) -> Forall P (calls t0)) ->
  I kw ->
  paginated_loop data_key func limit kw acc n fuel w = Some (t, w1, r) ->
  Forall P (calls t).
Proof.
  intros Hadd Hnext Hfunc. revert kw acc w t.
  induction n as [| n IH]; intros kw acc w t HI; [discriminate |].
  simpl.
  destruct (add_next_page_token kw) as [kw' | e] eqn:Hkw;
    [rewrite bind_lift_ret | rewrite bind_lift_raise; intros [= <- <- <-]; constructor].
  pose proof (Hadd _ _ HI Hkw) as HJ.
  intros Hrun.
  apply bind_run in Hrun
    as [(t1 & w2 & response & t2 & Hpage & Hrun & ->) | (e & Hpage & ->)];
    [| eauto].
  rewrite calls_app. apply Forall_app. split; [eauto |].
  revert Hrun.
  destruct (dict_get response data_key) as [page | e];
    [rewrite bind_lift_ret | rewrite bind_lift_raise; intros [= <- <- <-]; constructor].
  destruct (iterate page) as [items | e];
    [rewrite bind_lift_ret | rewrite bind_lift_raise; intros [= <- <- <-]; constructor].
  destruct (dict_get response "nextPageToken") as [token | e];
    [rewrite bind_lift_ret | rewrite bind_lift_raise; intros [= <- <- <-]; constructor].
  destruct (negb (truthy token)); [intros [= <- <- <-]; constructor |].
  destruct (_ >? _); [intros [= <- <- <-]; constructor |].
  apply IH. now apply Hnext.
Qed.

(** A listing function that hands its keywords on, called with a non-empty
    fields mask: every request carries a mask that lists [nextPageToken],
    and neither [limit] nor [propagate_errors]. *)
Lemma listing_masked client func named data_key kw s fuel (w : World) t w1 r :
  named !! "fields" = None -> named !! "limit" = None ->
  named !! "propagate_errors" = None ->
  kw !! "fields" = Some (VStr s) -> s <> "" ->
  paginated data_key (make_call_with client func named) kw fuel w
  = Some (t, w1, r) ->
  Forall (fun req =>
            resource req = client /\ method req = func
            /\ lists_next_page_token (kwargs req)
            /\ kwargs req !! "limit" = None
            /\ kwargs req !! "propagate_errors" = None)
    (calls t).
Proof.
  intros Hnf Hnl Hnp Hfields Hs. unfold paginated.
  destruct (py_int _) as [limit | e];
    [rewrite bind_lift_ret | rewrite bind_lift_raise; intros [= <- <- <-]; constructor].
  unfold with_fuel.
  apply (paginated_loop_calls
           (fun kw0 => (exists s0, kw0 !! "fields" = Some (VStr s0) /\ s0 <> "")
                       /\ kw0 !! "limit" = None)
           (fun kw0 => lists_next_page_token kw0 /\ kw0 !! "limit" = None)).
  - intros kw0 kw' ((s0 & Hf0 & Hs0) & Hl0) Hadd.
    destruct (add_next_page_token_spec kw0 s0 Hf0 Hs0)
      as (s' & Hadd' & _ & _ & Hin & _).
    rewrite Hadd' in Hadd. injection Hadd as <-. split.
    + exists s'. now rewrite lookup_insert_eq.
    + now rewrite lookup_insert_ne.
  - intros kw0 token ((s0 & Hf0 & Hin) & Hl0). split.
    + exists s0. rewrite lookup_insert_ne by discriminate. split; [exact Hf0 |].
      intros ->. vm_compute in Hin.
      apply list_elem_of_singleton in Hin. discriminate.
    + now rewrite lookup_insert_ne.
  - intros kw0 w0 t0 w2 r0 ((s0 & Hf0 & Hin) & Hl0) Hrun.
    apply make_call_with_calls in Hrun.
    eapply Forall_impl; [exact Hrun |]. intros req ->. simpl.
    split; [reflexivity |]. split; [reflexivity |].
    split; [| split].
    + exists s0. rewrite lookup_union_r by exact Hnf.
      now rewrite lookup_delete_ne.
    + rewrite lookup_union_r by exact Hnl. now rewrite lookup_delete_ne.
    + rewrite lookup_union_r by exact Hnp. apply lookup_delete_eq.
  - split.
    + exists s. now rewrite lookup_delete_ne.
    + apply lookup_delete_eq.
Qed.

(** The named keywords of [list_files]. *)
Lemma named_files_free (team_drive_id q : Value) k :
  k <> "corpora" -> k <> "driveId" -> k <> "supportsAllDrives" ->
  k <> "includeItemsFromAllDrives" -> k <> "q" ->
  ({[ "corpora" := VStr "drive";
      "driveId" := team_drive_id;
      "supportsAllDrives" := VBool true;
      "includeItemsFromAllDrives" := VBool true;
      "q" := q ]} : gmap string Value) !! k = None.
Proof.
  intros H1 H2 H3 H4 H5.
  rewrite !lookup_insert_ne by congruence.
  apply lookup_singleton_ne. congruence.
Qed.

(** X6: Field injection: when [list_files] is called with a non-empty fields
    mask, every request it sends, on every page, is a listing of files whose
    mask lists [nextPageToken]; the [limit] and [propagate_errors] keywords
    are never sent to the service. *)
Theorem list_files_requests_masked (team_drive_id q : Value)
    (kw : gmap string Value) (s : string) (fuel : nat) (w : World) t w1 r :
  kw !! "fields" = Some (VStr s) -> s <> "" ->
  list_files team_drive_id q kw fuel w = Some (t, w1, r) ->
  Forall (fun req =>
            resource req = files /\ method req = "list"
            /\ lists_next_page_token (kwargs req)
            /\ kwargs req !! "limit" = None
            /\ kwargs req !! "propagate_errors" = None)
    (calls t).
Proof.
  intros Hfields Hs Hrun.
  pose proof (named_files_free team_drive_id q) as Hfree.
  apply (listing_masked files "list" _ "files" kw s fuel w t w1 r
           (Hfree "fields" ltac:(discriminate) ltac:(discriminate)
              ltac:(discriminate) ltac:(discriminate) ltac:(discriminate))
           (Hfree "limit" ltac:(discriminate) ltac:(discriminate)
              ltac:(discriminate) ltac:(discriminate) ltac:(discriminate))
           (Hfree "propagate_errors" ltac:(discriminate) ltac:(discriminate)
              ltac:(discriminate) ltac:(discriminate) ltac:(discriminate))
           Hfields Hs Hrun).
Qed.

(** X7: The same for [list_team_drives]: with a non-empty fields mask, every
    request is a listing of team drives whose mask lists [nextPageToken],
    without [limit] and [propagate_errors]. *)
Theorem list_team_drives_requests_masked (kw : gmap string Value) (s : string)
    (fuel : nat) (w : World) t w1 r :
  kw !! "fields" = Some (VStr s) -> s <> "" ->
  list_team_drives kw fuel w = Some (t, w1, r) ->
  Forall (fun req =>
            resource req = teamdrives /\ method req = "list"
            /\ lists_next_page_token (kwargs req)
            /\ kwargs req !! "limit" = None
            /\ kwargs req !! "propagate_errors" = None)
    (calls t).
Proof.
  intros Hfields Hs Hrun.
  exact (listing_masked teamdrives "list" ∅ "teamDrives" kw s fuel w t w1 r
           (lookup_empty _) (lookup_empty _) (lookup_empty _)
           Hfields Hs Hrun).
Qed.

(** A keyword given twice, once by name and once among the unpacked ones,
    is a [TypeError] of the call itself: nothing is sent. *)
Lemma make_call_with_duplicate client func named extra k fuel (w : World) :
  is_Some (named !! k) -> is_Some (extra !! k) ->
  make_call_with client func named extra fuel w = Some ([], w, Raise TypeError).
Proof.
  intros (v & Hv) (v' & Hv'). unfold make_call_with.
  assert (Hdup : existsb (has_key extra)
                   (["client"; "func"] ++ (map_to_list named).*1) = true).
  { apply existsb_exists. exists k. split.
    - apply in_or_app. right. apply list_elem_of_In.
      apply list_elem_of_fmap. exists (k, v). split; [reflexivity |].
      now apply elem_of_map_to_list.
    - unfold has_key. now rewrite Hv'. }
  now rewrite Hdup.
Qed.

Lemma py_int_raises v e : py_int v = Raise e -> e = TypeError \/ e = ValueError.
Proof.
  destruct v; simpl; try (intros [= <-]; auto); try discriminate.
  destruct (int_of_str s); [discriminate | intros [= <-]; auto].
Qed.

(** X8: [list_comments] cannot be given a fields mask: it names [fields] itself
    and unpacks its keywords beside it, so a [fields] keyword, whatever its
    value, ends the call with a [TypeError] (an [AttributeError] when the
    value is not a string, a [ValueError] or [TypeError] when [limit] is
    unusable) before anything is sent. *)
Theorem list_comments_rejects_fields (file_id : Value) (kw : gmap string Value)
    (fuel : nat) (w : World) :
  (1 <= fuel)%nat -> is_Some (kw !! "fields") ->
  exists e,
    list_comments file_id kw fuel w = Some ([], w, Raise e)
    /\ (e = TypeError \/ e = AttributeError \/ e = ValueError).
Proof.
  intros Hfuel (v & Hv). destruct fuel as [| n]; [lia |].
  unfold list_comments, paginated.
  destruct (py_int _) as [limit | e] eqn:Hlimit.
  2: { exists e. rewrite bind_lift_raise. split; [reflexivity |].
       apply py_int_raises in Hlimit as [-> | ->]; auto. }
  rewrite bind_lift_ret. unfold with_fuel. cbn [paginated_loop].
  assert (Hv' : delete "limit" kw !! "fields" = Some v)
    by now rewrite lookup_delete_ne.
  assert (Hdup : forall kw0, is_Some (kw0 !! "fields") ->
            make_call_with comments "list"
              {[ "fileId" := file_id; "fields" := VStr "*" ]} kw0 (S n) w
            = Some ([], w, Raise TypeError)).
  { intros kw0 Hk. apply (make_call_with_duplicate _ _ _ _ "fields"); [| exact Hk].
    exists (VStr "*"). rewrite lookup_insert_ne by discriminate.
    apply lookup_singleton_eq. }
  unfold add_next_page_token. rewrite Hv'.
  destruct (truthy v) eqn:Htruthy.
  - destruct v; try (rewrite bind_lift_raise; exists AttributeError; auto).
    rewrite bind_lift_ret.
    rewrite (bind_raise_run _ _ _ _ _ _ _ (Hdup _ ltac:(now rewrite lookup_insert_eq))).
    exists TypeError. auto.
  - rewrite bind_lift_ret.
    rewrite (bind_raise_run _ _ _ _ _ _ _ (Hdup _ ltac:(now rewrite Hv'))).
    exists TypeError. auto.
Qed.

(** X9: A first page that brings the count over the limit is the only page:
    the wrapped function is called once and the result is that page's
    items, a continuation token remaining or not.  A negative limit makes
    every first page such a page. *)
Theorem paginated_first_page_over_limit (data_key : string)
    (func : gmap string Value -> M World Value) (kw : gmap string Value)
    (fuel : nat) (w : World) limit kw' t w1 response :
  (1 <= fuel)%nat ->
  py_int (default (VInt 250) (kw !! "limit")) = Ret limit ->
  add_next_page_token (delete "limit" kw) = Ret kw' ->
  func kw' fuel w = Some (t, w1, Ret response) ->
  (forall items, page_items data_key response = Ret items ->
     limit < Z.of_nat (length items)) ->
  paginated data_key func kw fuel w = Some (t, w1, page_items data_key response).
Proof.
  intros Hfuel Hlimit Hkw Hfunc Hover. destruct fuel as [| n]; [lia |].
  unfold paginated. rewrite Hlimit, bind_lift_ret. unfold with_fuel.
  cbn [paginated_loop].
  rewrite Hkw, bind_lift_ret, (bind_ret_run _ _ _ _ _ _ _ Hfunc). cbv beta.
  unfold page_items in *.
  destruct response as [| | | | | | d]; cbn [dict_get] in *;
    try (rewrite bind_lift_raise; simpl; now rewrite app_nil_r).
  rewrite bind_lift_ret.
  destruct (iterate (default VNone (d !! data_key))) as [items | e];
    [| rewrite bind_lift_raise; simpl; now rewrite app_nil_r].
  rewrite !bind_lift_ret. change ([] ++ items) with items.
  destruct (negb (truthy _)); [unfold ret; now rewrite app_nil_r |].
  specialize (Hover items eq_refl).
  assert (Hgt : (Z.of_nat (length items) >? limit) = true) by lia.
  rewrite Hgt. unfold ret. now rewrite app_nil_r.
Qed.

(** Unpacked keywords that repeat no named one are handed on. *)
Lemma make_call_with_disjoint client func named extra :
  (forall k, is_Some (extra !! k) ->
     k <> "client" /\ k <> "func" /\ named !! k = None) ->
  make_call_with (World := World) client func named extra
  = make_call client func
      (truthy (default (VBool false) (extra !! "propagate_errors")))
      (named ∪ delete "propagate_errors" extra).
Proof.
  intros Hfree. unfold make_call_with.
  destruct (existsb _ _) eqn:Hdup; [| reflexivity].
  apply existsb_exists in Hdup as (k & Hin & Hk).
  unfold has_key in Hk.
  destruct (extra !! k) as [v |] eqn:Hextra; [| discriminate].
  destruct (Hfree k) as (Hc & Hf & Hn); [now exists v |].
  apply in_app_or in Hin as [Hin | Hin].
  - simpl in Hin. destruct Hin as [<- | [<- | []]]; contradiction.
  - apply list_elem_of_In, list_elem_of_fmap in Hin as ((k' & v') & -> & Hin).
    apply elem_of_map_to_list in Hin. simpl in Hn. congruence.
Qed.

(** Empty pages that carry a token keep the loop going: it has no ceiling
    on the number of pages. *)
Lemma paginated_loop_endless (I : World -> Prop)
    (K : gmap string Value -> Prop) data_key
    (func : gmap string Value -> M World Value) limit fuel :
  0 <= limit ->
  (forall kw, K kw -> kw !! "fields" = None) ->
  (forall kw token, K kw -> K (<["pageToken" := token]> kw)) ->
  (forall kw w, K kw -> I w ->
     exists t w1 d token,
       func kw fuel w = Some (t, w1, Ret (VDict d))
       /\ d !! data_key = Some (VList [])
       /\ d !! "nextPageToken" = Some token
       /\ truthy token = true /\ I w1) ->
  forall n kw w, K kw -> I w ->
    paginated_loop data_key func limit kw [] n fuel w = None.
Proof.
  intros Hlimit Hfields Hnext Hfunc.
  induction n as [| n IH]; intros kw w HK HI; [reflexivity |].
  cbn [paginated_loop]. unfold add_next_page_token.
  rewrite (Hfields kw HK), bind_lift_ret.
  destruct (Hfunc kw w HK HI) as (t & w1 & d & token & Hrun & Hd & Htoken & Ht & HI1).
  rewrite (bind_ret_run _ _ _ _ _ _ _ Hrun). cbv beta.
  cbn [dict_get]. rewrite Hd, Htoken. cbn [default from_option id].
  rewrite bind_lift_ret. cbn [iterate]. rewrite !bind_lift_ret.
  rewrite Ht. cbn [negb app length].
  assert (Hle : (Z.of_nat 0 >? limit) = false)
    by (rewrite Z.gtb_ltb; apply Z.ltb_ge; exact Hlimit).
  rewrite Hle. now rewrite IH by auto.
Qed.

(** X10: [list_files] has no ceiling on the number of pages: against a service
    that keeps answering with an empty page and a continuation token, the
    accumulated count never passes the limit and no amount of fuel lets the
    call return. *)
Theorem list_files_no_page_ceiling (I : World -> Prop) (team_drive_id q : Value) :
  (forall req w, I w ->
     exists d token w1,
       execute req w = (Ret (VDict d), w1)
       /\ d !! "files" = Some (VList [])
       /\ d !! "nextPageToken" = Some token
       /\ truthy token = true /\ I w1) ->
  forall fuel w, I w -> list_files team_drive_id q ∅ fuel w = None.
Proof.
  intros Hserve fuel w HI. unfold list_files, paginated.
  rewrite lookup_empty. cbn [default py_int]. rewrite bind_lift_ret.
  unfold with_fuel. destruct fuel as [| n]; [reflexivity |].
  apply (paginated_loop_endless I
           (fun kw => forall k, is_Some (kw !! k) -> k = "pageToken"));
    [lia | | | | | exact HI].
  - intros kw HK. destruct (kw !! "fields") as [v |] eqn:Hv; [| reflexivity].
    now specialize (HK "fields" ltac:(now exists v)).
  - intros kw token HK k Hk.
    destruct (decide (k = "pageToken")) as [-> | Hne]; [reflexivity |].
    rewrite lookup_insert_ne in Hk by congruence. auto.
  - intros kw w0 HK HI0. unfold list_files_page.
    rewrite make_call_with_disjoint.
    2: { intros k Hk. rewrite (HK k Hk).
         split; [discriminate |]. split; [discriminate |].
         apply named_files_free; discriminate. }
    match goal with
    | |- context [make_call ?c ?f ?p ?a (S n) w0] =>
        destruct (Hserve (mkRequest c f a) w0 HI0)
          as (d & token & w1 & Hex & Hd & Htoken & Ht & HI1);
        exists [ECall (mkRequest c f a) (Ret (VDict d))], w1, d, token
    end.
    split; [apply make_call_returns; [lia | exact Hex] | auto].
  - intros k Hk. rewrite lookup_delete_ne in Hk.
    + rewrite lookup_empty in Hk. now destruct Hk.
    + intros <-. rewrite lookup_delete_eq in Hk. now destruct Hk.
Qed.

End PaginationMore.

Lemma list_files_requests_masked_witness :
  let a := VDict {[ "id" := VStr "a" ]} in
  let b := VDict {[ "id" := VStr "b" ]} in
  let page1 := VDict {[ "files" := VList [a]; "nextPageToken" := VStr "t1" ]} in
  let page2 := VDict {[ "files" := VList [b] ]} in
  let w := [Ret page1; Ret page2] in
  let kw : gmap string Value :=
    {[ "fields" := VStr "files(id)"; "limit" := VInt 10 ]} in
  let request (more : gmap string Value) :=
    mkRequest files "list"
      ({[ "corpora" := VStr "drive";
          "driveId" := VStr "D";
          "supportsAllDrives" := VBool true;
          "includeItemsFromAllDrives" := VBool true;
          "q" := VNone;
          "fields" := VStr "files(id),nextPageToken" ]} ∪ more) in
  let t := [ECall (request ∅) (Ret page1);
            ECall (request {[ "pageToken" := VStr "t1" ]}) (Ret page2)] in
  list_files (VStr "D") VNone kw 5%nat w = Some (t, [], Ret [a; b])
  /\ Forall (fun req =>
               resource req = files /\ method req = "list"
               /\ lists_next_page_token (kwargs req)
               /\ kwargs req !! "limit" = None
               /\ kwargs req !! "propagate_errors" = None)
       (calls t).
Proof.
  intros a b page1 page2 w kw request t.
  assert (Hrun : list_files (VStr "D") VNone kw 5%nat w = Some (t, [], Ret [a; b]))
    by (vm_cast_no_check (@eq_refl _ (Some (t, ([] : list (Res Value)), Ret [a; b])))).
  split; [exact Hrun |].
  refine (list_files_requests_masked (VStr "D") VNone kw "files(id)" 5%nat w t []
            (Ret [a; b]) _ _ Hrun).
  - vm_cast_no_check (@eq_refl _ (Some (VStr "files(id)"))).
  - discriminate.
Defined.

Lemma list_team_drives_requests_masked_witness :
  let d := VDict {[ "id" := VStr "D1" ]} in
  let page := VDict {[ "teamDrives" := VList [d] ]} in
  let w := [Ret page] in
  let kw : gmap string Value :=
    {[ "fields" := VStr "nextPageToken,teamDrives(id)";
       "propagate_errors" := VBool true ]} in
  let request :=
    mkRequest teamdrives "list"
      {[ "fields" := VStr "nextPageToken,teamDrives(id)" ]} in
  let t := [ECall request (Ret page)] in
  list_team_drives kw 5%nat w = Some (t, [], Ret [d])
  /\ Forall (fun req =>
               resource req = teamdrives /\ method req = "list"
               /\ lists_next_page_token (kwargs req)
               /\ kwargs req !! "limit" = None
               /\ kwargs req !! "propagate_errors" = None)
       (calls t).
Proof.
  intros d page w kw request t.
  assert (Hrun : list_team_drives kw 5%nat w = Some (t, [], Ret [d]))
    by (vm_cast_no_check (@eq_refl _ (Some (t, ([] : list (Res Value)), Ret [d])))).
  split; [exact Hrun |].
  refine (list_team_drives_requests_masked kw "nextPageToken,teamDrives(id)"
            5%nat w t [] (Ret [d]) _ _ Hrun).
  - vm_cast_no_check (@eq_refl _ (Some (VStr "nextPageToken,teamDrives(id)"))).
  - discriminate.
Defined.

Lemma list_comments_rejects_fields_witness :
  let kw : gmap string Value := {[ "fields" := VStr "comments(id)" ]} in
  exists e,
    list_comments (VStr "f1") kw 1%nat [Ret VNone] = Some ([], [Ret VNone], Raise e)
    /\ (e = TypeError \/ e = AttributeError \/ e = ValueError).
Proof.
  intros kw.
  refine (list_comments_rejects_fields (VStr "f1") kw 1%nat [Ret VNone] (le_n 1) _).
  exists (VStr "comments(id)"). apply lookup_singleton_eq.
Defined.

Lemma paginated_first_page_over_limit_witness :
  let a := VDict {[ "id" := VStr "a" ]} in
  let b := VDict {[ "id" := VStr "b" ]} in
  let page1 := VDict {[ "files" := VList [a; b]; "nextPageToken" := VStr "t1" ]} in
  let w := [Ret page1; Ret (VDict {[ "files" := VList [a] ]})] in
  let kw : gmap string Value := {[ "limit" := VInt 1 ]} in
  let request :=
    mkRequest files "list"
      {[ "corpora" := VStr "drive";
         "driveId" := VStr "D";
         "supportsAllDrives" := VBool true;
         "includeItemsFromAllDrives" := VBool true;
         "q" := VNone ]} in
  paginated "files" (list_files_page (VStr "D") VNone) kw 5%nat w
  = Some ([ECall request (Ret page1)], tl w, page_items "files" page1)
  /\ page_items "files" page1 = Ret [a; b].
Proof.
  intros a b page1 w kw request.
  assert (Hitems : page_items "files" page1 = Ret [a; b])
    by (vm_cast_no_check (@eq_refl _ (Ret (A := list Value) [a; b]))).
  split; [| exact Hitems].
  refine (paginated_first_page_over_limit "files" (list_files_page (VStr "D") VNone)
            kw 5%nat w 1 ∅ [ECall request (Ret page1)] (tl w) page1 _ _ _ _ _).
  - lia.
  - vm_cast_no_check (@eq_refl _ (Ret (A := Z) 1)).
  - vm_cast_no_check (@eq_refl _ (Ret (A := gmap string Value) ∅)).
  - vm_cast_no_check
      (@eq_refl _ (Some ([ECall request (Ret page1)], tl w, Ret page1))).
  - intros items Hpage. rewrite Hitems in Hpage. injection Hpage as <-.
    simpl. lia.
Defined.

Lemma list_files_no_page_ceiling_witness :
  (forall (req : Request) (w : unit), True ->
     exists d token w1,
       execute (Environment := endless) req w = (Ret (VDict d), w1)
       /\ d !! "files" = Some (VList [])
       /\ d !! "nextPageToken" = Some token
       /\ truthy token = true /\ True)
  /\ (forall fuel,
        list_files (Env := endless) (VStr "D") VNone ∅ fuel tt = None).
Proof.
  assert (Hserve : forall (req : Request) (w : unit), True ->
     exists d token w1,
       execute (Environment := endless) req w = (Ret (VDict d), w1)
       /\ d !! "files" = Some (VList [])
       /\ d !! "nextPageToken" = Some token
       /\ truthy token = true /\ True).
  { intros req w _.
    exists {[ "files" := VList []; "nextPageToken" := VStr "more" ]}, (VStr "more"), w.
    split; [reflexivity |].
    split; [apply lookup_insert_eq |].
    split; [| split; [reflexivity | exact I]].
    rewrite lookup_insert_ne by discriminate. apply lookup_singleton_eq. }
  split; [exact Hserve |].
  intros fuel.
  exact (list_files_no_page_ceiling (Env := endless) (fun _ => True)
           (VStr "D") VNone Hserve fuel tt I).
Defined.

(** ** More on the operations *)

Section OperationsMore.

Context {World : Type} `{Env : Environment World}.






(** X11: [create_file] knows folders only: for the type [folder] every request
    is the creation of the folder under the parent, answered exactly when
    the call returns; for any other type the mime type is never bound and
    the call ends with an [UnboundLocalError] before anything is sent. *)
Theorem create_file_folder_only (parent_id name file_type : Value)
    (fuel : nat) (w : World) t w1 r :
  create_file parent_id name file_type fuel w = Some (t, w1, r) ->
  if eq_str file_type "folder" then
    sends_only (create_folder_request parent_id name) t
    /\ answers t = match r with
                   | Ret v => [(create_folder_request parent_id name, v)]
                   | Raise _ => []
                   end
  else t = [] /\ w1 = w /\ r = Raise UnboundLocalError.
Proof.
  unfold create_file. destruct (eq_str file_type "folder").
  - rewrite bind_ret. intros Hrun.
    now apply make_call_run in Hrun as (Hs & Ha & _).
  - rewrite bind_raise. intros [= <- <- <-]. auto.
Qed.

(** X12: [list_permissions] lists files: every request it sends is the [list]
    of the files collection with the caller's keywords
    ([propagate_errors] apart), never a request on the permissions. *)
Theorem list_permissions_lists_files (kw : gmap string Value)
    (fuel : nat) (w : World) t w1 r :
  list_permissions kw fuel w = Some (t, w1, r) ->
  sends_only (mkRequest files "list" (delete "propagate_errors" kw)) t
  /\ Forall (fun q => resource q = files /\ resource q <> permissions) (calls t).
Proof.
  unfold list_permissions. intros Hrun.
  apply make_call_with_calls in Hrun.
  rewrite (left_id_L ∅ (∪)) in Hrun.
  split; [exact Hrun |].
  eapply Forall_impl; [exact Hrun |]. intros q ->. split; [reflexivity | discriminate].
Qed.

(** X13: Without [empty], [delete_team_drive] neither lists nor deletes files:
    every request is the deletion of the drive, answered exactly when the
    call returns. *)
Theorem delete_team_drive_keeps_files (team_drive_id : Value)
    (fuel : nat) (w : World) t w1 r :
  delete_team_drive team_drive_id false fuel w = Some (t, w1, r) ->
  sends_only (delete_drive_request team_drive_id) t
  /\ answers t = match r with
                 | Ret v => [(delete_drive_request team_drive_id, v)]
                 | Raise _ => []
                 end
  /\ (ListFiles ∉ attempted t)
  /\ (forall file_id, DeleteFile file_id ∉ attempted t).
Proof.
  unfold delete_team_drive. rewrite bind_ret. intros Hrun.
  pose proof (make_call_run _ _ _ _ _ _ _ _ _ Hrun) as (Hs & Ha & _).
  apply make_call_steps in Hrun as (Hsteps & _).
  split; [exact Hs |]. split; [exact Ha |].
  split; [| intros file_id]; intros Hin;
    apply (proj1 (Forall_forall _ _) Hsteps) in Hin; discriminate.
Qed.



(** X16: A creation the service rejects, with 409 or any other status that is
    not transient, ends [create_team_drive] after one request: the generic
    failure of the executor reaches the caller, the creation is not
    attempted again under a new request id, and no member is granted. *)
Theorem create_team_drive_creation_fails (name : Value) (members : list Value)
    (role : Roles) (fuel : nat) (w : World) request_id w0 status content w1 :
  (1 <= fuel)%nat ->
  uuid4 w = (request_id, w0) ->
  execute (create_drive_request name request_id) w0
  = (Raise (HttpError status content), w1) ->
  status_in status [300; 429; 500; 502; 503; 504] = false ->
  create_team_drive name members role fuel w
  = Some ([ECall (create_drive_request name request_id)
             (Raise (HttpError status content))],
          w1, Raise (request_failed content)).
Proof.
  intros Hfuel Huuid Hex Hin.
  rewrite create_team_drive_single_attempt by lia.
  unfold create_team_drive_body.
  assert (Hnew : new_uuid fuel w = Some ([], w0, Ret request_id))
    by (unfold new_uuid; now rewrite Huuid).
  rewrite (bind_ret_run _ _ _ _ _ _ _ Hnew). cbv beta zeta.
  pose proof (make_call_permanent drives "create" false _ fuel w0 status content
                w1 Hfuel Hex Hin) as Hcall.
  cbn [kwargs create_drive_request] in Hcall.
  assert (Hatt :
    attempt (make_call drives "create" false
               {[ "body" := VDict {[ "name" := name ]};
                  "requestId" := VStr request_id ]}) fuel w0
    = Some ([ECall (create_drive_request name request_id)
               (Raise (HttpError status content))], w1,
            Ret (Raise (request_failed content))))
    by (unfold attempt; now rewrite Hcall).
  rewrite (bind_ret_run _ _ _ _ _ _ _ Hatt). cbv beta.
  unfold request_failed. destruct (json_loads content);
    rewrite bind_raise; reflexivity.
Qed.


End OperationsMore.

Lemma create_file_folder_only_witness :
  let w := [Ret (VDict {[ "id" := VStr "F" ]})] in
  create_file (VStr "P") (VStr "notes") (VStr "document") 5%nat w
  = Some ([], w, Raise UnboundLocalError)
  /\ ([] = ([] : list Event) /\ w = w
      /\ Raise UnboundLocalError = Raise (A := Value) UnboundLocalError).
Proof.
  intros w.
  assert (Hrun : create_file (VStr "P") (VStr "notes") (VStr "document") 5%nat w
                 = Some ([], w, Raise UnboundLocalError)) by reflexivity.
  split; [exact Hrun |].
  exact (create_file_folder_only (VStr "P") (VStr "notes") (VStr "document")
           5%nat w [] w (Raise UnboundLocalError) Hrun).
Defined.

Lemma list_permissions_lists_files_witness :
  let kw : gmap string Value :=
    {[ "q" := VStr "name = 'notes'"; "propagate_errors" := VBool true ]} in
  let request := mkRequest files "list" {[ "q" := VStr "name = 'notes'" ]} in
  let t := [ECall request (failure 403)] in
  list_permissions kw 5%nat [failure 403] = Some (t, [], Raise HttpErrorClass)
  /\ sends_only (mkRequest files "list" (delete "propagate_errors" kw)) t
  /\ Forall (fun q => resource q = files /\ resource q <> permissions) (calls t).
Proof.
  intros kw request t.
  assert (Hrun : list_permissions kw 5%nat [failure 403]
                 = Some (t, [], Raise HttpErrorClass))
    by (vm_cast_no_check
          (@eq_refl _ (Some (t, ([] : list (Res Value)),
                             Raise (A := Value) HttpErrorClass)))).
  split; [exact Hrun |].
  exact (list_permissions_lists_files kw 5%nat [failure 403] t []
           (Raise HttpErrorClass) Hrun).
Defined.

Lemma delete_team_drive_keeps_files_witness :
  let request := delete_drive_request (VStr "D") in
  let t := [ECall request (Ret VNone)] in
  delete_team_drive (VStr "D") false 5%nat [Ret VNone] = Some (t, [], Ret VNone)
  /\ sends_only request t
  /\ answers t = [(request, VNone)]
  /\ (ListFiles ∉ attempted t)
  /\ (forall file_id, DeleteFile file_id ∉ attempted t).
Proof.
  intros request t.
  assert (Hrun : delete_team_drive (VStr "D") false 5%nat [Ret VNone]
                 = Some (t, [], Ret VNone))
    by (vm_cast_no_check
          (@eq_refl _ (Some (t, ([] : list (Res Value)), Ret VNone)))).
  split; [exact Hrun |].
  exact (delete_team_drive_keeps_files (VStr "D") 5%nat [Ret VNone] t []
           (Ret VNone) Hrun).
Defined.



Lemma create_team_drive_creation_fails_witness :
  let later := [Ret (VDict {[ "id" := VStr "D" ]}); Ret VNone] in
  let request_id := "c1f0e3a2-5b7d-4c1e-9a54-0d2f6b8e7a11" in
  create_team_drive (VStr "incident-1") [VStr "ann@example.com"] owner 1%nat
    (failure 409 :: later)
  = Some ([ECall (create_drive_request (VStr "incident-1") request_id)
             (Raise (HttpError 409 "{}"))],
          later, Raise (request_failed "{}")).
Proof.
  intros later request_id.
  exact (create_team_drive_creation_fails (VStr "incident-1")
           [VStr "ann@example.com"] owner 1%nat (failure 409 :: later)
           request_id (failure 409 :: later) 409 "{}" later
           (le_n 1) eq_refl eq_refl eq_refl).
Defined.


(** ** Uploads *)

Section Uploads.

Context {World : Type} `{Env : Environment World}.

Lemma chunks_app t1 t2 : chunks (t1 ++ t2) = chunks t1 ++ chunks t2.
Proof. apply omap_app. Qed.

(** One attempt of [upload_chunk]: one chunk, and what its outcome
    becomes. *)
Lemma upload_chunk_body_run (request : UploadRequest) fuel (w : World) t w1 r :
  upload_chunk_body request fuel w = Some (t, w1, r) ->
  exists o,
    next_chunk request w = (o, w1) /\ t = [EChunk request o]
    /\ match r with
       | Ret v => ~ chunk_retried o /\ v = chunk_result o
       | Raise e => chunk_retried o /\ o = Raise e
       end.
Proof.
  unfold upload_chunk_body, bind, attempt, send_chunk.
  destruct (next_chunk request w) as [o w0]. intros Hrun. exists o.
  destruct o as [v | e]; simpl in Hrun.
  - injection Hrun as <- <- <-. auto.
  - destruct e; simpl in Hrun;
      try (injection Hrun as <- <- <-; repeat split; auto; fail).
    destruct (status_in status [500; 502; 503; 504]) eqn:Hin; simpl in Hrun;
      injection Hrun as <- <- <-.
    + repeat split; auto.
    + split; [reflexivity |]. split; [reflexivity |].
      split; [| reflexivity]. unfold chunk_retried. rewrite Hin. discriminate.
Qed.

Lemma upload_chunk_loop_run (request : UploadRequest) n k fuel (w : World) t w1 r :
  retry_loop
    {| stop := stop_never; retry_on := retry_if_exception;
       wait := wait_exponential 1 0 10 |}
    (upload_chunk_body request) k n fuel w
  = Some (t, w1, r) ->
  exists earlier last,
    chunks t = ((fun o => (request, o)) <$> earlier) ++ [(request, last)]
    /\ Forall chunk_retried earlier
    /\ ~ chunk_retried last
    /\ r = Ret (chunk_result last)
    /\ calls t = []
    /\ length (sleeps t) = length earlier
    /\ Forall (fun d => 0 <= d <= 10) (sleeps t).
Proof.
  revert k w t. induction n as [| n IH]; intros k w t Hrun; [discriminate |].
  apply retry_loop_run in Hrun as (t0 & w0 & r0 & Hbody & Hrest).
  apply upload_chunk_body_run in Hbody as (o & _ & -> & Ho).
  destruct r0 as [v | e].
  - destruct Hrest as (-> & -> & ->). destruct Ho as (Hno & ->).
    exists [], o. repeat split; auto.
  - cbn [retry_on stop wait] in Hrest. unfold retry_if_exception in Hrest.
    rewrite orb_true_r in Hrest. unfold stop_never in Hrest.
    destruct Hrest as (t2 & Hrec & ->). destruct Ho as (Hyes & ->).
    apply IH in Hrec as (earlier & last & Hchunks & Hall & Hlast & -> & Hcalls
                         & Hlen & Hd).
    exists (Raise e :: earlier), last.
    change ([EChunk request (Raise e)] ++ ESleep (wait_exponential 1 0 10 k) :: t2)
      with ([EChunk request (Raise e)] ++ [ESleep (wait_exponential 1 0 10 k)] ++ t2).
    rewrite !chunks_app, !calls_app, !sleeps_app, Hchunks, Hcalls.
    split; [reflexivity |]. split; [now constructor |].
    split; [exact Hlast |]. split; [reflexivity |]. split; [reflexivity |].
    split; [simpl; now rewrite Hlen |].
    simpl. constructor; [| exact Hd].
    apply (wait_exponential_bounds 1 0 10). lia.
Qed.

(** X18: [upload_chunk] never raises and never gives up.  Its trace is the same
    chunk sent again and again: every send but the last one ended with one
    of 500, 502, 503, 504 or with an exception that is no [HttpError], and
    was followed by a sleep of at most 10; the last send was answered, or
    failed with another status.  The result is the answer of the last
    send, or [None] when it failed. *)
Theorem upload_chunk_outcome (request : UploadRequest) (fuel : nat) (w : World)
    t w1 r :
  upload_chunk request fuel w = Some (t, w1, r) ->
  exists earlier last,
    chunks t = ((fun o => (request, o)) <$> earlier) ++ [(request, last)]
    /\ Forall chunk_retried earlier
    /\ ~ chunk_retried last
    /\ r = Ret (chunk_result last)
    /\ calls t = []
    /\ length (sleeps t) = length earlier
    /\ Forall (fun d => 0 <= d <= 10) (sleeps t).
Proof. apply upload_chunk_loop_run. Qed.

Lemma upload_chunk_loop_rides (request : UploadRequest) k :
  forall a n fuel (w : World) v w',
    (k < n)%nat ->
    chunk_after request k w v w' ->
    exists t,
      retry_loop
        {| stop := stop_never; retry_on := retry_if_exception;
           wait := wait_exponential 1 0 10 |}
        (upload_chunk_body request) a n fuel w
      = Some (t, w', Ret v)
      /\ length (chunks t) = S k
      /\ length (sleeps t) = k.
Proof.
  induction k as [| k IH]; intros a n fuel w v w' Hn Hafter;
    (destruct n as [| n]; [lia |]).
  - simpl in Hafter. exists [EChunk request (Ret v)]. split; [| auto].
    apply retry_loop_returns.
    unfold upload_chunk_body, bind, attempt, send_chunk. now rewrite Hafter.
  - simpl in Hafter.
    destruct (next_chunk request w) as [[v0 | e] w0] eqn:Hchunk; [contradiction |].
    destruct e; try contradiction. destruct Hafter as (Hin & Hafter).
    destruct (IH (S a) n fuel w0 v w') as (t2 & Hrec & Hchunks & Hsleeps);
      [lia | exact Hafter |].
    exists ([EChunk request (Raise (HttpError status content))]
            ++ ESleep (wait_exponential 1 0 10 a) :: t2).
    split.
    + erewrite retry_loop_again.
      * now rewrite Hrec.
      * unfold upload_chunk_body, bind, attempt, send_chunk.
        now rewrite Hchunk, Hin.
      * reflexivity.
      * reflexivity.
    + change (ESleep (wait_exponential 1 0 10 a) :: t2)
        with ([ESleep (wait_exponential 1 0 10 a)] ++ t2).
      rewrite !chunks_app, !sleeps_app, !length_app, Hchunks, Hsleeps.
      split; reflexivity.
Qed.

(** X19: The retry of [upload_chunk] has no ceiling: however many times [k] the
    service fails a chunk with 500, 502, 503 or 504 before it answers,
    [upload_chunk] sends it [k + 1] times, sleeps [k] times and returns the
    answer. *)
Theorem upload_chunk_no_ceiling (request : UploadRequest) (k fuel : nat)
    (w : World) v w' :
  (k < fuel)%nat ->
  chunk_after request k w v w' ->
  exists t,
    upload_chunk request fuel w = Some (t, w', Ret v)
    /\ length (chunks t) = S k
    /\ length (sleeps t) = k.
Proof.
  intros Hfuel Hafter. unfold upload_chunk, retry, with_fuel.
  now apply upload_chunk_loop_rides.
Qed.

(** X20: the failures of [upload_file].  When the media file cannot be
    opened, what its constructor raises (outside the [try]) reaches the
    caller as it is, and nothing is sent.  When the client library refuses
    to build the request, nothing is sent either and the handler decides:
    [TryAgain] for an [HttpError] with status 404, the failure that names
    the file for any other [HttpError], the exception itself otherwise.
    Once the request is built, [upload_file] never raises [TryAgain], nor
    the failure that names the file, nor an [HttpError]: [upload_chunk]
    raises nothing, so the only exceptions are those of unpacking what it
    returned, a [TypeError] (the [None] of a dropped failure) or a
    [ValueError]. *)
Theorem upload_file_failures (path name mimetype : Value) (fuel : nat)
    (w : World) t w1 e :
  upload_file path name mimetype fuel w = Some (t, w1, Raise e) ->
  (t = [] /\ media_file_upload path mimetype w = (Raise e, w1))
  \/ (exists w0,
        media_file_upload path mimetype w = (Ret tt, w0)
        /\ ((t = []
             /\ exists e0,
                 create_upload (mkUpload path mimetype name) w0 = (Raise e0, w1)
                 /\ e = upload_handler path name mimetype e0)
            \/ ((exists w2,
                    create_upload (mkUpload path mimetype name) w0 = (Ret tt, w2))
                /\ (e = TypeError \/ e = ValueError)
                /\ e <> TryAgain
                /\ (forall message, e <> Exception message)
                /\ (forall status content, e <> HttpError status content)))).
Proof.
  intros Hrun.
  apply upload_file_raises in Hrun
    as [Hopen | (w0 & Hopen & [Hbuild | (Hbuild & He)])];
    [now left | right; exists w0; split; [exact Hopen | now left] |].
  right. exists w0. split; [exact Hopen |]. right.
  split; [exact Hbuild |]. split; [exact He |].
  destruct He as [-> | ->]; repeat split; intros; discriminate.
Qed.

Lemma upload_loop_completes (request : UploadRequest) k :
  forall n fuel (w : World) response w',
    (k < n)%nat -> (1 <= fuel)%nat ->
    upload_progress request k w response w' ->
    exists t,
      upload_loop request n fuel w = Some (t, w', Ret response)
      /\ length (chunks t) = S k
      /\ Forall (fun c => c.1 = request /\ exists v, c.2 = Ret v) (chunks t)
      /\ sleeps t = [] /\ calls t = [].
Proof.
  assert (Hone : forall fuel (w : World) v w1,
            (1 <= fuel)%nat -> next_chunk request w = (Ret v, w1) ->
            upload_chunk request fuel w
            = Some ([EChunk request (Ret v)], w1, Ret v)).
  { intros fuel w v w1 Hfuel Hchunk. destruct fuel as [| m]; [lia |].
    unfold upload_chunk, retry, with_fuel. apply retry_loop_returns.
    unfold upload_chunk_body, bind, attempt, send_chunk. now rewrite Hchunk. }
  induction k as [| k IH]; intros n fuel w response w' Hn Hfuel Hprogress;
    (destruct n as [| n]; [lia |]).
  - destruct Hprogress as (status & Hchunk & Htruthy).
    exists [EChunk request (Ret (VTuple [status; response]))].
    split; [| repeat split; auto].
    + cbn [upload_loop].
      rewrite (bind_ret_run _ _ _ _ _ _ _ (Hone _ _ _ _ Hfuel Hchunk)). cbv beta.
      cbn [unpack_pair iterate]. rewrite bind_lift_ret. cbn [snd].
      rewrite Htruthy. reflexivity.
    + repeat constructor. now exists (VTuple [status; response]).
  - destruct Hprogress as (status & pending & w0 & Hchunk & Hfalsy & Hprogress).
    destruct (IH n fuel w0 response w') as (t2 & Hrec & Hlen & Hall & Hs & Hc);
      [lia | exact Hfuel | exact Hprogress |].
    exists ([EChunk request (Ret (VTuple [status; pending]))] ++ t2).
    split; [| rewrite chunks_app, sleeps_app, calls_app, Hs, Hc; repeat split].
    + cbn [upload_loop].
      rewrite (bind_ret_run _ _ _ _ _ _ _ (Hone _ _ _ _ Hfuel Hchunk)). cbv beta.
      cbn [unpack_pair iterate]. rewrite bind_lift_ret. cbn [snd].
      rewrite Hfalsy. cbn [negb]. now rewrite Hrec.
    + simpl. now rewrite Hlen.
    + apply Forall_app. split; [| exact Hall].
      repeat constructor. now exists (VTuple [status; pending]).
Qed.

(** X21: An upload the service takes, once the media file is open and the
    request of the session is built: while the chunks are answered with a
    progress status and no response, [upload_file] sends the next one, and
    it returns the response that comes with the last chunk; it sends
    nothing but the chunks of the one resumable session, and never
    sleeps. *)
Theorem upload_file_completes (path name mimetype : Value) (k fuel : nat)
    (w w0 w2 : World) response w' :
  (k < fuel)%nat ->
  media_file_upload path mimetype w = (Ret tt, w0) ->
  create_upload (mkUpload path mimetype name) w0 = (Ret tt, w2) ->
  upload_progress (mkUpload path mimetype name) k w2 response w' ->
  exists t,
    upload_file path name mimetype fuel w = Some (t, w', Ret response)
    /\ length (chunks t) = S k
    /\ Forall (fun c => c.1 = mkUpload path mimetype name /\ exists v, c.2 = Ret v)
         (chunks t)
    /\ sleeps t = [] /\ calls t = [].
Proof.
  intros Hfuel Hopen Hbuild Hprogress.
  destruct (upload_loop_completes (mkUpload path mimetype name) k fuel fuel w2
              response w' Hfuel ltac:(lia) Hprogress)
    as (t & Hrun & Hrest).
  exists t. split; [| exact Hrest].
  unfold upload_file.
  assert (Hmedia : open_media path mimetype fuel w = Some ([], w0, Ret tt))
    by (unfold open_media; now rewrite Hopen).
  rewrite (bind_ret_run _ _ _ _ _ _ _ Hmedia). cbv beta.
  assert (Hatt : attempt (build_upload (mkUpload path mimetype name) ;;;
                          with_fuel (upload_loop (mkUpload path mimetype name)))
                   fuel w0 = Some (t, w', Ret (Ret response)))
    by (unfold attempt, bind, build_upload, with_fuel;
        now rewrite Hbuild, Hrun).
  rewrite (bind_ret_run _ _ _ _ _ _ _ Hatt). unfold ret. now rewrite app_nil_r.
Qed.

End Uploads.

Lemma upload_chunk_outcome_witness :
  let request :=
    mkUpload (VStr "/tmp/report.pdf") (VStr "application/pdf") (VStr "report") in
  let t := [EChunk request (failure 503); ESleep 2; EChunk request (failure 404)] in
  upload_chunk request 5%nat [failure 503; failure 404] = Some (t, [], Ret VNone)
  /\ exists earlier last,
      chunks t = ((fun o => (request, o)) <$> earlier) ++ [(request, last)]
      /\ Forall chunk_retried earlier
      /\ ~ chunk_retried last
      /\ Ret VNone = Ret (chunk_result last)
      /\ calls t = []
      /\ length (sleeps t) = length earlier
      /\ Forall (fun d => 0 <= d <= 10) (sleeps t).
Proof.
  intros request t.
  assert (Hrun : upload_chunk request 5%nat [failure 503; failure 404]
                 = Some (t, [], Ret VNone))
    by (vm_cast_no_check
          (@eq_refl _ (Some (t, ([] : list (Res Value)), Ret VNone)))).
  split; [exact Hrun |].
  exact (upload_chunk_outcome request 5%nat [failure 503; failure 404] t []
           (Ret VNone) Hrun).
Defined.

Lemma upload_chunk_no_ceiling_witness :
  let request :=
    mkUpload (VStr "/tmp/report.pdf") (VStr "application/pdf") (VStr "report") in
  let v := VTuple [VNone; VDict {[ "id" := VStr "F" ]}] in
  exists t,
    upload_chunk request 7%nat (replicate 6 (failure 503) ++ [Ret v])
    = Some (t, [], Ret v)
    /\ length (chunks t) = 7%nat
    /\ length (sleeps t) = 6%nat.
Proof.
  intros request v.
  refine (upload_chunk_no_ceiling request 6 7
            (replicate 6 (failure 503) ++ [Ret v]) v [] (le_n 7) _).
  simpl. repeat split.
Defined.

Lemma upload_file_failures_witness :
  let request :=
    mkUpload (VStr "/tmp/report.pdf") (VStr "application/pdf") (VStr "report") in
  let w := [failure 404] in
  let t := [EChunk request (failure 404)] in
  upload_file (VStr "/tmp/report.pdf") (VStr "report") (VStr "application/pdf")
    5%nat w
  = Some (t, [], Raise TypeError)
  /\ ((t = []
       /\ media_file_upload (VStr "/tmp/report.pdf") (VStr "application/pdf") w
          = (Raise TypeError, []))
      \/ (exists w0,
            media_file_upload (VStr "/tmp/report.pdf") (VStr "application/pdf") w
            = (Ret tt, w0)
            /\ ((t = []
                 /\ exists e0,
                     create_upload request w0 = (Raise e0, [])
                     /\ TypeError
                        = upload_handler (VStr "/tmp/report.pdf") (VStr "report")
                            (VStr "application/pdf") e0)
                \/ ((exists w2, create_upload request w0 = (Ret tt, w2))
                    /\ (TypeError = TypeError \/ TypeError = ValueError)
                    /\ TypeError <> TryAgain
                    /\ (forall message, TypeError <> Exception message)
                    /\ (forall status content,
                          TypeError <> HttpError status content))))).
Proof.
  intros request w t.
  assert (Hrun :
    upload_file (VStr "/tmp/report.pdf") (VStr "report") (VStr "application/pdf")
      5%nat w
    = Some (t, [], Raise TypeError))
    by (vm_cast_no_check
          (@eq_refl _ (Some (t, ([] : list (Res Value)),
                             Raise (A := Value) TypeError)))).
  split; [exact Hrun |].
  exact (upload_file_failures _ _ _ 5%nat w t [] TypeError Hrun).
Defined.

Lemma upload_file_completes_witness :
  let progress := VDict {[ "progress" := VInt 50 ]} in
  let response := VDict {[ "id" := VStr "F" ]} in
  let w := [Ret (VTuple [progress; VNone]); Ret (VTuple [VNone; response])] in
  exists t,
    upload_file (VStr "/tmp/report.pdf") (VStr "report") (VStr "application/pdf")
      2%nat w
    = Some (t, [], Ret response)
    /\ length (chunks t) = 2%nat
    /\ Forall (fun c =>
                 c.1 = mkUpload (VStr "/tmp/report.pdf") (VStr "application/pdf")
                         (VStr "report")
                 /\ exists v, c.2 = Ret v)
         (chunks t)
    /\ sleeps t = [] /\ calls t = [].
Proof.
  intros progress response w.
  refine (upload_file_completes (VStr "/tmp/report.pdf") (VStr "report")
            (VStr "application/pdf") 1 2 w w w response [] (le_n 2)
            eq_refl eq_refl _).
  exists progress, VNone, (tl w). split; [reflexivity |]. split; [reflexivity |].
  exists VNone. split; [reflexivity |].
  vm_cast_no_check (@eq_refl bool true).
Defined.

(** ** Downloads *)

Section DownloadsMore.

Context {World : Type} `{Tr : Transfers World}.

Lemma unpack_pair_raises v e :
  unpack_pair v = Raise e -> e = TypeError \/ e = ValueError.
Proof.
  unfold unpack_pair.
  destruct (iterate v) as [[| a [| b [| c l]]] | e1] eqn:Hiter;
    try (intros [= <-]; now right); try discriminate.
  intros [= <-]. left. destruct v; simpl in Hiter; congruence.
Qed.

(** The loop of a download: chunks that were answered, then at most one
    that failed; the loop raises what that chunk raised, or the error of
    unpacking an answer that is no pair. *)
Lemma download_loop_run (request : Request) n fuel (w : World) t w1 r :
  download_loop request n fuel w = Some (t, w1, r) ->
  exists vs last,
    t = answered_chunks request vs ++ last
    /\ match r with
       | Ret _ => last = [] /\ vs <> []
       | Raise e =>
           last = [ECall request (Raise e)]
           \/ (last = [] /\ vs <> [] /\ (e = TypeError \/ e = ValueError))
       end.
Proof.
  revert w t. induction n as [| n IH]; intros w t Hrun; [discriminate |].
  cbn [download_loop] in Hrun.
  destruct (download_chunk request w) as [[v | e] w0] eqn:Hchunk.
  - assert (Hfetch : fetch_chunk request fuel w
                     = Some ([ECall request (Ret v)], w0, Ret v))
      by (unfold fetch_chunk; now rewrite Hchunk).
    rewrite (bind_ret_run _ _ _ _ _ _ _ Hfetch) in Hrun. cbv beta in Hrun.
    destruct (unpack_pair v) as [p | e] eqn:Hpair.
    + rewrite bind_lift_ret in Hrun.
      destruct (negb (truthy (snd p))).
      * destruct (download_loop request n fuel w0) as [[[t2 w2] r2] |] eqn:Hrec;
          [| discriminate].
        injection Hrun as <- <- <-.
        apply IH in Hrec as (vs & last & -> & Hr).
        exists (v :: vs), last. split; [reflexivity |].
        destruct r2 as [[] | e].
        -- destruct Hr as (-> & _). split; [reflexivity | discriminate].
        -- destruct Hr as [-> | (-> & _ & He)]; [now left | right].
           split; [reflexivity |]. split; [discriminate | exact He].
      * injection Hrun as <- <- <-.
        exists [v], []. split; [reflexivity |]. split; [reflexivity | discriminate].
    + rewrite bind_lift_raise in Hrun. injection Hrun as <- <- <-.
      exists [v], []. split; [reflexivity |]. right.
      split; [reflexivity |]. split; [discriminate |].
      now apply unpack_pair_raises in Hpair.
  - assert (Hfetch : fetch_chunk request fuel w
                     = Some ([ECall request (Raise e)], w0, Raise e))
      by (unfold fetch_chunk; now rewrite Hchunk).
    rewrite (bind_raise_run _ _ _ _ _ _ _ Hfetch) in Hrun.
    injection Hrun as <- <- <-.
    exists [], [ECall request (Raise e)]. split; [reflexivity | now left].
Qed.

(** X22: Every run of [download_file].  When the temporary file cannot be
    created nothing is sent.  Otherwise the trace is chunks of the one
    media request that were answered, then at most one that failed: there
    is no retry, whatever the status.  A chunk that fails with an
    [HttpError] makes the call raise the failure that names the file id;
    any other exception of a chunk is raised as it is.  The call returns
    the temporary file, and only after a chunk was answered. *)
Theorem download_file_outcome (file_id : Value) (fuel : nat) (w : World) t w1 r :
  download_file file_id fuel w = Some (t, w1, r) ->
  exists vs last,
    t = answered_chunks (get_media_request file_id) vs ++ last
    /\ match r with
       | Ret fp =>
           last = [] /\ vs <> []
           /\ exists w0, named_temporary_file w = (Ret fp, w0)
       | Raise e =>
           (exists e0,
               last = [ECall (get_media_request file_id) (Raise e0)]
               /\ e = if is_HttpError e0 then download_failed file_id else e0)
           \/ (last = [] /\ vs <> [] /\ (e = TypeError \/ e = ValueError))
           \/ (t = [] /\ exists w0, named_temporary_file w = (Raise e, w0))
       end.
Proof.
  unfold download_file, get_media_request. cbv zeta. intros Hrun.
  destruct (named_temporary_file w) as [[fp | e] w0] eqn:Hfile.
  2: { assert (Hnew : new_tempfile fuel w = Some ([], w0, Raise e))
         by (unfold new_tempfile; now rewrite Hfile).
       rewrite (bind_raise_run _ _ _ _ _ _ _ Hnew) in Hrun.
       injection Hrun as <- <- <-.
       exists [], []. split; [reflexivity |]. right. right.
       split; [reflexivity | now exists w0]. }
  assert (Hnew : new_tempfile fuel w = Some ([], w0, Ret fp))
    by (unfold new_tempfile; now rewrite Hfile).
  rewrite (bind_ret_run _ _ _ _ _ _ _ Hnew) in Hrun. cbv beta in Hrun.
  unfold bind at 1, attempt, with_fuel in Hrun.
  destruct (download_loop _ fuel fuel w0) as [[[t2 w2] r2] |] eqn:Hloop;
    [| discriminate].
  apply download_loop_run in Hloop as (vs & last & -> & Hr).
  exists vs, last.
  destruct r2 as [[] | e].
  - injection Hrun as <- <- <-. destruct Hr as (-> & Hvs).
    split; [now rewrite !app_nil_r |]. split; [reflexivity |].
    split; [exact Hvs | now exists w0].
  - destruct Hr as [-> | (-> & Hvs & He)].
    + destruct e; injection Hrun as <- <- <-;
        (split; [now rewrite ?app_nil_r |]); left; eexists; split;
          reflexivity.
    + destruct He as [-> | ->]; injection Hrun as <- <- <-;
        (split; [now rewrite ?app_nil_r |]); right; left; auto.
Qed.

(** X23: Every run of [download_google_document].  The trace is chunks of the
    one export request that were answered, then at most one that failed:
    there is no retry.  The call never raises an [HttpError] or an
    [OSError] (the class or a subclass of it): from a chunk or from reading
    the buffer, either one is replaced by the failure that names the file
    id and the target format;
    any other exception (a decoding error among them) is raised as it is.
    The call returns the decoded text of the buffer, and only after a chunk
    was answered. *)
Theorem download_google_document_outcome (file_id mime_type : Value)
    (fuel : nat) (w : World) t w1 r :
  download_google_document file_id mime_type fuel w = Some (t, w1, r) ->
  exists vs last,
    t = answered_chunks (export_media_request file_id mime_type) vs ++ last
    /\ match r with
       | Ret v =>
           last = [] /\ vs <> []
           /\ exists text, buffer_text w1 = Ret text /\ v = VStr text
       | Raise e =>
           is_HttpError e = false /\ is_OSError e = false
           /\ ((exists e0,
                   last = [ECall (export_media_request file_id mime_type)
                             (Raise e0)]
                   /\ e = if is_HttpError e0 || is_OSError e0
                          then export_failed file_id mime_type else e0)
               \/ (last = [] /\ vs <> [] /\ (e = TypeError \/ e = ValueError))
               \/ (last = [] /\ vs <> []
                   /\ exists e0,
                       buffer_text w1 = Raise e0
                       /\ e = if is_HttpError e0 || is_OSError e0
                              then export_failed file_id mime_type else e0))
       end.
Proof.
  unfold download_google_document, export_media_request. cbv zeta. intros Hrun.
  assert (Hwrap : forall e0 t0 w0 w' r',
            (if is_HttpError e0 || is_OSError e0
             then raise (World := World) (A := Value)
                    (Exception [Lit "Failed to export the file. Id: ";
                                Fmt file_id; Lit " MimeType: "; Fmt mime_type])
             else raise e0) fuel w0 = Some (t0, w', r') ->
            t0 = [] /\ w' = w0
            /\ r' = Raise (if is_HttpError e0 || is_OSError e0
                           then export_failed file_id mime_type else e0)
            /\ is_HttpError (if is_HttpError e0 || is_OSError e0
                             then export_failed file_id mime_type else e0) = false
            /\ is_OSError (if is_HttpError e0 || is_OSError e0
                           then export_failed file_id mime_type else e0) = false).
  { intros e0 t0 w0 w' r' Hraise.
    destruct (is_HttpError e0 || is_OSError e0) eqn:Hkind;
      injection Hraise as <- <- <-; repeat split; auto.
    - now apply orb_false_elim in Hkind as [? _].
    - now apply orb_false_elim in Hkind as [_ ?]. }
  apply bind_run in Hrun
    as [(tb & wb & rb & t2 & Hatt & Hhandler & ->) | (e & Hatt & _)].
  2: { unfold attempt in Hatt.
       destruct (bind _ _ fuel w) as [[[? ?] ?] |]; discriminate. }
  unfold attempt in Hatt.
  destruct (bind _ _ fuel w) as [[[tb' wb'] rb'] |] eqn:Hbody; [| discriminate].
  injection Hatt as <- <- <-.
  apply bind_run in Hbody
    as [(t3 & w3 & [] & t4 & Hloop & Hread & ->) | (e & Hloop & ->)].
  - unfold with_fuel in Hloop.
    apply download_loop_run in Hloop as (vs & last & -> & (-> & Hvs)).
    exists vs, []. rewrite !app_nil_r.
    unfold bind, read_buffer, ret in Hread.
    destruct (buffer_text w3) as [text | e0] eqn:Htext;
      injection Hread as <- <- <-.
    + injection Hhandler as <- <- <-. rewrite !app_nil_r.
      split; [reflexivity |]. split; [reflexivity |].
      split; [exact Hvs | now exists text].
    + apply Hwrap in Hhandler as (-> & -> & -> & Hh & Ho).
      rewrite !app_nil_r. split; [reflexivity |].
      split; [exact Hh |]. split; [exact Ho |].
      right. right. split; [reflexivity |]. split; [exact Hvs |].
      now exists e0.
  - unfold with_fuel in Hloop.
    apply download_loop_run in Hloop as (vs & last & -> & Hr).
    exists vs, last.
    apply Hwrap in Hhandler as (-> & -> & -> & Hh & Ho).
    rewrite app_nil_r. split; [reflexivity |].
    destruct Hr as [-> | (-> & Hvs & He)].
    + split; [exact Hh |]. split; [exact Ho |]. left. now exists e.
    + destruct He as [-> | ->]; cbn [is_HttpError is_OSError orb];
        (split; [reflexivity |]); (split; [reflexivity |]); right; left; auto.
Qed.

Lemma download_loop_completes (request : Request) k :
  forall n fuel (w w' : World),
    (k < n)%nat ->
    download_progress request k w w' ->
    exists vs,
      download_loop request n fuel w
      = Some (answered_chunks request vs, w', Ret tt)
      /\ length vs = S k.
Proof.
  induction k as [| k IH]; intros n fuel w w' Hn Hprogress;
    (destruct n as [| n]; [lia |]).
  - destruct Hprogress as (status & done & Hchunk & Hdone).
    exists [VTuple [status; done]]. split; [| reflexivity].
    cbn [download_loop].
    assert (Hfetch : fetch_chunk request fuel w
              = Some ([ECall request (Ret (VTuple [status; done]))], w',
                      Ret (VTuple [status; done])))
      by (unfold fetch_chunk; now rewrite Hchunk).
    rewrite (bind_ret_run _ _ _ _ _ _ _ Hfetch). cbv beta.
    cbn [unpack_pair iterate]. rewrite bind_lift_ret. cbn [snd].
    rewrite Hdone. reflexivity.
  - destruct Hprogress as (status & done & w0 & Hchunk & Hdone & Hprogress).
    destruct (IH n fuel w0 w') as (vs & Hrec & Hlen); [lia | exact Hprogress |].
    exists (VTuple [status; done] :: vs). split; [| simpl; now rewrite Hlen].
    cbn [download_loop].
    assert (Hfetch : fetch_chunk request fuel w
              = Some ([ECall request (Ret (VTuple [status; done]))], w0,
                      Ret (VTuple [status; done])))
      by (unfold fetch_chunk; now rewrite Hchunk).
    rewrite (bind_ret_run _ _ _ _ _ _ _ Hfetch). cbv beta.
    cbn [unpack_pair iterate]. rewrite bind_lift_ret. cbn [snd].
    rewrite Hdone. cbn [negb]. now rewrite Hrec.
Qed.

(** X24: A download the service serves: [download_file] asks for chunk after
    chunk of the media request until one reports the download done, then
    returns the temporary file it created at the start. *)
Theorem download_file_completes (file_id : Value) (k fuel : nat)
    (w w0 w' : World) fp :
  (k < fuel)%nat ->
  named_temporary_file w = (Ret fp, w0) ->
  download_progress (get_media_request file_id) k w0 w' ->
  exists vs,
    download_file file_id fuel w
    = Some (answered_chunks (get_media_request file_id) vs, w', Ret fp)
    /\ length vs = S k.
Proof.
  intros Hfuel Hfile Hprogress.
  destruct (download_loop_completes (get_media_request file_id) k fuel fuel
              w0 w' Hfuel Hprogress) as (vs & Hloop & Hlen).
  exists vs. split; [| exact Hlen].
  unfold download_file. cbv zeta.
  assert (Hnew : new_tempfile fuel w = Some ([], w0, Ret fp))
    by (unfold new_tempfile; now rewrite Hfile).
  rewrite (bind_ret_run _ _ _ _ _ _ _ Hnew). cbv beta.
  assert (Hatt : attempt (with_fuel (download_loop (get_media_request file_id)))
                   fuel w0
                 = Some (answered_chunks (get_media_request file_id) vs, w',
                         Ret (Ret tt)))
    by (unfold attempt, with_fuel; now rewrite Hloop).
  unfold get_media_request in Hatt.
  rewrite (bind_ret_run _ _ _ _ _ _ _ Hatt). unfold ret.
  now rewrite app_nil_r.
Qed.

End DownloadsMore.

Lemma download_file_outcome_witness :
  let request := get_media_request (VStr "f1") in
  let first := VTuple [VDict {[ "progress" := VInt 50 ]}; VBool false] in
  let later := [Ret (VTuple [VNone; VBool true])] in
  let w := Ret first :: failure 503 :: later in
  let t := [ECall request (Ret first); ECall request (failure 503)] in
  download_file (VStr "f1") 5%nat w
  = Some (t, later, Raise (download_failed (VStr "f1")))
  /\ exists vs last,
      t = answered_chunks request vs ++ last
      /\ ((exists e0,
              last = [ECall request (Raise e0)]
              /\ download_failed (VStr "f1")
                 = if is_HttpError e0 then download_failed (VStr "f1") else e0)
          \/ (last = [] /\ vs <> []
              /\ (download_failed (VStr "f1") = TypeError
                  \/ download_failed (VStr "f1") = ValueError))
          \/ (t = []
              /\ exists w0,
                  named_temporary_file w
                  = (Raise (download_failed (VStr "f1")), w0))).
Proof.
  intros request first later w t.
  assert (Hrun : download_file (VStr "f1") 5%nat w
                 = Some (t, later, Raise (download_failed (VStr "f1"))))
    by (vm_cast_no_check
          (@eq_refl _ (Some (t, later,
                             Raise (A := Value) (download_failed (VStr "f1")))))).
  split; [exact Hrun |].
  exact (download_file_outcome (VStr "f1") 5%nat w t later
           (Raise (download_failed (VStr "f1"))) Hrun).
Defined.

Lemma download_google_document_outcome_witness :
  let request := export_media_request (VStr "d1") (VStr "text/plain") in
  let failed := export_failed (VStr "d1") (VStr "text/plain") in
  let later := [Ret (VTuple [VNone; VBool true])] in
  let w := Raise (OtherError "ConnectionResetError") :: later in
  let t := [ECall request (Raise (OtherError "ConnectionResetError"))] in
  download_google_document (VStr "d1") (VStr "text/plain") 5%nat w
  = Some (t, later, Raise failed)
  /\ exists vs last,
      t = answered_chunks request vs ++ last
      /\ is_HttpError failed = false /\ is_OSError failed = false
      /\ ((exists e0,
              last = [ECall request (Raise e0)]
              /\ failed = if is_HttpError e0 || is_OSError e0 then failed else e0)
          \/ (last = [] /\ vs <> [] /\ (failed = TypeError \/ failed = ValueError))
          \/ (last = [] /\ vs <> []
              /\ exists e0,
                  buffer_text later = Raise e0
                  /\ failed = if is_HttpError e0 || is_OSError e0
                              then failed else e0)).
Proof.
  intros request failed later w t.
  assert (Hrun : download_google_document (VStr "d1") (VStr "text/plain") 5%nat w
                 = Some (t, later, Raise failed))
    by (vm_cast_no_check
          (@eq_refl _ (Some (t, later, Raise (A := Value) failed)))).
  split; [exact Hrun |].
  exact (download_google_document_outcome (VStr "d1") (VStr "text/plain") 5%nat w
           t later (Raise failed) Hrun).
Defined.

Lemma download_file_completes_witness :
  let request := get_media_request (VStr "f1") in
  let first := VTuple [VDict {[ "progress" := VInt 50 ]}; VBool false] in
  let last := VTuple [VDict {[ "progress" := VInt 100 ]}; VBool true] in
  let w := [Ret first; Ret last] in
  exists vs,
    download_file (VStr "f1") 2%nat w
    = Some (answered_chunks request vs, [], Ret (VStr "/tmp/tmpq3k1x9"))
    /\ length vs = 2%nat.
Proof.
  intros request first last w.
  refine (download_file_completes (VStr "f1") 1 2 w w [] (VStr "/tmp/tmpq3k1x9")
            (le_n 2) eq_refl _).
  exists (VDict {[ "progress" := VInt 50 ]}), (VBool false), (tl w).
  split; [reflexivity |]. split; [reflexivity |].
  exists (VDict {[ "progress" := VInt 100 ]}), (VBool true).
  split; reflexivity.
Defined.
